(** * The filter block of a table: builder and reader (table/filter_block.cc)

    A shallow embedding of [FilterBlockBuilder] and [FilterBlockReader] and the
    properties of the byte region the first writes and the second reads.

    Conventions.
    - [std::string] and [Slice] are lists of bytes; [size] is the length as an
      integer.
    - [size_t] and [uint64_t] values are integers in [Z].  Sizes of, and
      offsets into, live strings and vectors are kept exact; every narrowing
      conversion the source performs ([size_t] to [uint32_t], [size_t] to
      [int], [ptrdiff_t] to [size_t], [char] to [size_t]) is written out.
    - A [const char*] is either [nullptr] or an address inside the buffer the
      reader borrows; a read outside the buffer is a fault ([None]).
    - [assert] failing is [None]. *)

From Stdlib Require Import ZArith List Lia Bool.
From Stdlib Require Import Strings.Byte.
From Equations Require Import Equations.
Import ListNotations.
Local Open Scope Z_scope.

Set Implicit Arguments.

(** ** Bytes, strings and slices *)

Abbreviation Slice := (list byte) (only parsing).

Definition size {A : Type} (l : list A) : Z := Z.of_nat (length l).

Definition byte_to_Z (b : byte) : Z := Z.of_N (Byte.to_N b).

Definition Z_to_byte (z : Z) : byte :=
  match Byte.of_N (Z.to_N (z mod 256)) with
  | Some b => b
  | None => x00
  end.

Global Arguments Z_to_byte : simpl never.
Global Arguments byte_to_Z : simpl never.

(** [std::string(data + pos, len)]: the [len] bytes of [s] from [pos] on. *)
Definition substr (s : list byte) (pos len : Z) : list byte :=
  firstn (Z.to_nat len) (skipn (Z.to_nat pos) s).

(** The conversion to [uint32_t]. *)
Definition to_uint32 (z : Z) : Z := z mod 2 ^ 32.

(** The conversion to [uint64_t] / [size_t]. *)
Definition to_uint64 (z : Z) : Z := z mod 2 ^ 64.

(** The conversion to [int], 32 bits wide: the value modulo [2^32] that lies
    in [[-2^31, 2^31)], which is the value itself when that is below [2^31]. *)
Definition to_int (z : Z) : Z := (z + 2 ^ 31) mod 2 ^ 32 - 2 ^ 31.

Definition uint64_range (z : Z) : Prop := 0 <= z < 2 ^ 64.

(** ** util/coding.h *)

Module Coding.

(** Modelled from the spec: [EncodeFixed32] of util/coding.h, which is not
    among the sources: a 4-byte little-endian unsigned integer. *)
Definition EncodeFixed32 (value : Z) : list byte :=
  [ Z_to_byte value;
    Z_to_byte (Z.shiftr value 8);
    Z_to_byte (Z.shiftr value 16);
    Z_to_byte (Z.shiftr value 24) ].

(** Modelled from the spec: [PutFixed32(dst, value)] of util/coding.h appends
    the four bytes of [value] to [*dst]. *)
Definition PutFixed32 (dst : list byte) (value : Z) : list byte :=
  dst ++ EncodeFixed32 value.

(** Modelled from the spec: [DecodeFixed32] of util/coding.h on the four
    bytes it is given, least significant first. *)
Definition DecodeFixed32_bytes (bs : list byte) : Z :=
  match bs with
  | [b0; b1; b2; b3] =>
      Z.lor (byte_to_Z b0)
        (Z.lor (Z.shiftl (byte_to_Z b1) 8)
           (Z.lor (Z.shiftl (byte_to_Z b2) 16) (Z.shiftl (byte_to_Z b3) 24)))
  | _ => 0
  end.

End Coding.

(** ** leveldb/filter_policy.h *)

Module FilterPolicy.

(** Modelled from the spec: the [FilterPolicy] interface of
    leveldb/filter_policy.h, which is not among the sources.

    [CreateFilter keys n dst] is the content of [*dst] after the call
    [CreateFilter(keys, n, dst)] when it was [dst] before: [keys] is the array
    the pointer [keys] points into, from that element on, and [n] the [int]
    that says how many of its elements, [keys[0, n-1]], the filter is for.

    [KeyMayMatch key filter] may consult and change whatever the policy object
    can reach; [W] is the type of that environment.  A policy whose match
    routine is a function of its two arguments leaves [W] alone. *)
Record FilterPolicy (W : Type) : Type := {
  CreateFilter : list Slice -> Z -> list byte -> list byte;
  KeyMayMatch : Slice -> Slice -> W -> bool * W
}.

(** [CreateFilter] appends to its target and changes nothing before. *)
Definition appends {W} (p : FilterPolicy W) : Prop :=
  forall keys n dst, exists filter, CreateFilter p keys n dst = dst ++ filter.

(** [KeyMayMatch] never returns [false] for a key of the set a filter was
    built from, which is [keys[0, n-1]]. *)
Definition no_false_negatives {W} (p : FilterPolicy W) : Prop :=
  forall keys n dst filter key w,
    CreateFilter p keys n dst = dst ++ filter ->
    In key (firstn (Z.to_nat n) keys) ->
    fst (KeyMayMatch p key filter w) = true.

(** [KeyMayMatch] is a function of the key and the filter, without effect. *)
Definition pure_match {W} (p : FilterPolicy W) : Prop :=
  exists f : Slice -> Slice -> bool,
    forall key filter w, KeyMayMatch p key filter w = (f key filter, w).

End FilterPolicy.

(** ** FilterBlockBuilder *)

Module FilterBlockBuilder.
Import Coding FilterPolicy.

(** Generate new filter every 2KB of data *)
Definition kFilterBaseLg : Z := 11.
Definition kFilterBase : Z := Z.shiftl 1 kFilterBaseLg.

(** The members of the class ([policy_] is passed to the methods). *)
Record t : Type := {
  keys_ : list byte;          (* Flattened key contents *)
  start_ : list Z;            (* Starting index in keys_ of each key *)
  result_ : list byte;        (* Filter data computed so far *)
  tmp_keys_ : list Slice;     (* policy_->CreateFilter() argument *)
  filter_offsets_ : list Z    (* std::vector<uint32_t> *)
}.

(** The constructor [FilterBlockBuilder::FilterBlockBuilder]: every member
    starts empty. *)
Definition FilterBlockBuilder : t :=
  {| keys_ := []; start_ := []; result_ := []; tmp_keys_ := [];
     filter_offsets_ := [] |}.

Definition AddKey (key : Slice) (b : t) : t :=
  let k := key in
  {| keys_ := keys_ b ++ k;
     start_ := start_ b ++ [size (keys_ b)];
     result_ := result_ b;
     tmp_keys_ := tmp_keys_ b;
     filter_offsets_ := filter_offsets_ b |}.

Section WithPolicy.
Context {W : Type} (policy_ : FilterPolicy W).

(** [start_] holds the sizes [keys_] had when each key was added, so the
    difference [start_[i + 1] - start_[i]] below is taken between
    non-decreasing values ([BuilderFacts.Inv], [LayoutFacts.pos_mono]). *)
Definition GenerateFilter (b : t) : t :=
  let num_keys := length (start_ b) in
  if Nat.eqb num_keys 0 then
    (* Fast path if there are no keys for this filter *)
    {| keys_ := keys_ b;
       start_ := start_ b;
       result_ := result_ b;
       tmp_keys_ := tmp_keys_ b;
       filter_offsets_ := filter_offsets_ b ++ [to_uint32 (size (result_ b))] |}
  else
    (* Make list of keys from flattened key structure *)
    let start' := start_ b ++ [size (keys_ b)] in
    let tmp_keys' :=
      map (fun i =>
             let base := nth i start' 0 in
             let length := nth (i + 1) start' 0 - nth i start' 0 in
             substr (keys_ b) base length)
          (seq 0 num_keys) in
    (* Generate filter for current set of keys and append to result_. *)
    let filter_offsets' := filter_offsets_ b ++ [to_uint32 (size (result_ b))] in
    let n := to_int (Z.of_nat num_keys) (* static_cast<int>(num_keys) *) in
    let result' := CreateFilter policy_ tmp_keys' n (result_ b) in
    {| keys_ := [];
       start_ := [];
       result_ := result';
       tmp_keys_ := [];
       filter_offsets_ := filter_offsets' |}.

Lemma GenerateFilter_offsets (b : t) :
  filter_offsets_ (GenerateFilter b) =
  filter_offsets_ b ++ [to_uint32 (size (result_ b))].
Proof.
  unfold GenerateFilter. destruct (Nat.eqb (length (start_ b)) 0); reflexivity.
Qed.

(** The loop of [StartBlock]:
    [while (filter_index > filter_offsets_.size()) GenerateFilter();] *)
Equations? StartBlock_loop (filter_index : Z) (b : t) : t
  by wf (Z.to_nat (filter_index - size (filter_offsets_ b))) lt :=
  StartBlock_loop filter_index b
    with Z_gt_dec filter_index (size (filter_offsets_ b)) := {
    | left _ := StartBlock_loop filter_index (GenerateFilter b);
    | right _ := b }.
Proof.
  rewrite GenerateFilter_offsets. unfold size in *.
  rewrite length_app. simpl. lia.
Qed.

Definition StartBlock (block_offset : Z) (b : t) : option t :=
  let filter_index := block_offset / kFilterBase in
  if filter_index >=? size (filter_offsets_ b) then
    Some (StartBlock_loop filter_index b)
  else None (* assert(filter_index >= filter_offsets_.size()) *).

Definition Finish (b : t) : Slice * t :=
  let b1 := if negb (Nat.eqb (length (start_ b)) 0) then GenerateFilter b else b in
  (* Append array of per-filter offsets *)
  let array_offset := to_uint32 (size (result_ b1)) in
  let result1 := fold_left PutFixed32 (filter_offsets_ b1) (result_ b1) in
  let result2 := PutFixed32 result1 array_offset in
  (* Save encoding parameter in result *)
  let result3 := result2 ++ [Z_to_byte kFilterBaseLg] in
  (result3,
   {| keys_ := keys_ b1;
      start_ := start_ b1;
      result_ := result3;
      tmp_keys_ := tmp_keys_ b1;
      filter_offsets_ := filter_offsets_ b1 |}).

End WithPolicy.

End FilterBlockBuilder.

(** ** FilterBlockReader *)

Module FilterBlockReader.
Import Coding FilterPolicy.

(** A [const char*]: null, or an address counted from the first byte of the
    buffer the reader was constructed over. *)
Inductive char_ptr : Type :=
| nullptr
| addr (a : Z).

Definition ptr_add (p : char_ptr) (k : Z) : char_ptr :=
  match p with
  | nullptr => nullptr
  | addr a => addr (a + k)
  end.

(** What the language leaves to the platform: whether [char] is signed, and
    the value of [x >> s] on a 64-bit [x] when [s] is 64 or more. *)
Record Platform : Type := {
  char_is_signed : bool;
  shr_wide : Z -> Z -> Z
}.

(** The members of the class ([policy_] is passed to the methods). *)
Record t : Type := {
  data_ : char_ptr;    (* Pointer to filter data (at block-start) *)
  offset_ : char_ptr;  (* Pointer to beginning of offset array (at block-end) *)
  num_ : Z;            (* Number of entries in offset array *)
  base_lg_ : Z         (* Encoding parameter (see kFilterBaseLg in .cc file) *)
}.

(** The bytes [mem[a .. a+len)], or a fault. *)
Definition read (mem : list byte) (a len : Z) : option (list byte) :=
  if (0 <=? a) && (0 <=? len) && (a + len <=? size mem)
  then Some (substr mem a len)
  else None.

(** [DecodeFixed32(p)] on the buffer [mem]. *)
Definition DecodeFixed32 (mem : list byte) (p : char_ptr) : option Z :=
  match p with
  | nullptr => None
  | addr a => option_map DecodeFixed32_bytes (read mem a 4)
  end.

Section WithPlatform.
Variable pf : Platform.

(** The implicit conversion of a [char] to [size_t]. *)
Definition char_to_size_t (c : byte) : Z :=
  let z := byte_to_Z c in
  if char_is_signed pf && (128 <=? z) then to_uint64 (z - 256) else z.

(** [x >> s] on [uint64_t x] and [size_t s]. *)
Definition shr64 (x s : Z) : Z :=
  if s <? 64 then Z.shiftr x s else to_uint64 (shr_wide pf x s).

(** The constructor [FilterBlockReader::FilterBlockReader(policy, contents)]. *)
Definition FilterBlockReader (contents : Slice) : option t :=
  let this :=
    {| data_ := nullptr; offset_ := nullptr; num_ := 0; base_lg_ := 0 |} in
  let n := size contents in
  if n <? 5 then Some this (* 1 byte for base_lg_ and 4 for start of offset array *)
  else
    match nth_error contents (Z.to_nat (n - 1)) with
    | None => None
    | Some c =>
        let this :=
          {| data_ := data_ this; offset_ := offset_ this; num_ := num_ this;
             base_lg_ := char_to_size_t c |} in
        match DecodeFixed32 contents (addr (n - 5)) with
        | None => None
        | Some last_word =>
            if last_word >? n - 5 then Some this
            else
              let data := addr 0 (* contents.data() *) in
              Some {| data_ := data;
                      offset_ := ptr_add data last_word;
                      num_ := (n - 5 - last_word) / 4;
                      base_lg_ := base_lg_ this |}
        end
    end.

(** *** The query

    [KeyMayMatch] is a method of a reader object that calls out to the policy:
    it runs over the borrowed buffer, the object's members and the policy's
    environment, and may fault. *)
Record State (W : Type) : Type := {
  heap : list byte;
  this : t;
  world : W
}.

Definition M (W A : Type) : Type := State W -> option (A * State W).

(** The state in which a query on reader [r] over the buffer [contents]
    starts. *)
Definition state {W} (contents : list byte) (r : t) (w : W) : State W :=
  {| heap := contents; this := r; world := w |}.

Section Monad.
Context {W : Type}.

Definition ret {A} (a : A) : M W A := fun s => Some (a, s).

Definition bind {A B} (m : M W A) (k : A -> M W B) : M W B :=
  fun s =>
    match m s with
    | None => None
    | Some (a, s') => k a s'
    end.

Definition fault {A} : M W A := fun _ => None.

(** Read the object's members. *)
Definition self : M W t := fun s => Some (this s, s).

Definition lift_heap {A} (f : list byte -> option A) : M W A :=
  fun s =>
    match f (heap s) with
    | None => None
    | Some a => Some (a, s)
    end.

(** [static_cast<size_t>(p - q)] *)
Definition ptr_diff (p q : char_ptr) : M W Z :=
  match p, q with
  | addr a, addr b => ret (to_uint64 (a - b))
  | _, _ => fault
  end.

(** [Slice(p, len)], with the bytes it views. *)
Definition make_slice (p : char_ptr) (len : Z) : M W Slice :=
  match p with
  | nullptr => fault
  | addr a => lift_heap (fun mem => read mem a len)
  end.

(** [policy_->KeyMayMatch(key, filter)] *)
Definition call_KeyMayMatch (policy_ : FilterPolicy W) (key filter : Slice)
  : M W bool :=
  fun s =>
    let (r, w') := FilterPolicy.KeyMayMatch policy_ key filter (world s) in
    Some (r, {| heap := heap s; this := this s; world := w' |}).

End Monad.

Notation "x <- m ;; k" := (bind m (fun x => k))
  (at level 61, m at next level, right associativity).

Section WithPolicy.
Context {W : Type} (policy_ : FilterPolicy W).

Definition KeyMayMatch (block_offset : Z) (key : Slice) : M W bool :=
  this <- self ;;
  let index := shr64 block_offset (base_lg_ this) in
  if index <? num_ this then
    start <- lift_heap (fun mem =>
               DecodeFixed32 mem (ptr_add (offset_ this) (index * 4))) ;;
    limit <- lift_heap (fun mem =>
               DecodeFixed32 mem (ptr_add (offset_ this) (index * 4 + 4))) ;;
    in_range <- (if start <=? limit
                 then d <- ptr_diff (offset_ this) (data_ this) ;;
                      ret (limit <=? d)
                 else ret false) ;;
    if in_range then
      filter <- make_slice (ptr_add (data_ this) start) (limit - start) ;;
      call_KeyMayMatch policy_ key filter
    else if start =? limit then
      (* Empty filters do not match any keys *)
      ret false
    else ret true (* Errors are treated as potential matches *)
  else ret true. (* Errors are treated as potential matches *)

End WithPolicy.
End WithPlatform.

(** The two states of a reader: the footer was parsed, or it was not and the
    members kept the values the constructor starts from. *)
Definition valid (r : t) : Prop := data_ r <> nullptr.

Definition degraded (r : t) : Prop :=
  data_ r = nullptr /\ offset_ r = nullptr /\ num_ r = 0.

End FilterBlockReader.

(** ** The table writer's calls, and policies to run the code with *)

Module Driver.
Import FilterPolicy.

(** One call of the table writer on a builder. *)
Inductive Call : Type :=
| CallStartBlock (block_offset : Z)
| CallAddKey (key : Slice).

Section WithPolicy.
Context {W : Type} (policy_ : FilterPolicy W).

Definition call (c : Call) (b : FilterBlockBuilder.t) : option FilterBlockBuilder.t :=
  match c with
  | CallStartBlock block_offset => FilterBlockBuilder.StartBlock policy_ block_offset b
  | CallAddKey key => Some (FilterBlockBuilder.AddKey key b)
  end.

(** The calls in order, stopping at the first assertion that fails. *)
Fixpoint run (calls : list Call) (b : FilterBlockBuilder.t)
  : option FilterBlockBuilder.t :=
  match calls with
  | [] => Some b
  | c :: rest =>
      match call c b with
      | None => None
      | Some b' => run rest b'
      end
  end.

(** A fresh builder, the calls, then [Finish]. *)
Definition build (calls : list Call) : option (Slice * FilterBlockBuilder.t) :=
  match run calls FilterBlockBuilder.FilterBlockBuilder with
  | None => None
  | Some b => Some (FilterBlockBuilder.Finish policy_ b)
  end.

End WithPolicy.

(** The offsets of the [StartBlock] calls, in call order. *)
Fixpoint block_offsets (calls : list Call) : list Z :=
  match calls with
  | [] => []
  | CallStartBlock o :: rest => o :: block_offsets rest
  | CallAddKey _ :: rest => block_offsets rest
  end.

(** Each offset is a [uint64_t] and none is below the one before. *)
Fixpoint non_decreasing_from (lo : Z) (offsets : list Z) : Prop :=
  match offsets with
  | [] => True
  | o :: rest => lo <= o < 2 ^ 64 /\ non_decreasing_from o rest
  end.

Definition legal (calls : list Call) : Prop :=
  non_decreasing_from 0 (block_offsets calls).

(** A policy that answers "maybe" to everything and writes one byte per
    filter. *)
Definition always_policy : FilterPolicy unit :=
  {| CreateFilter := fun _ _ dst => dst ++ [x01];
     KeyMayMatch := fun _ _ w => (true, w) |}.

Definition first_byte (key : Slice) : byte :=
  match key with
  | [] => x00
  | c :: _ => c
  end.

(** A policy that keeps the first byte of each of the [n] keys. *)
Definition first_byte_policy : FilterPolicy unit :=
  {| CreateFilter := fun keys n dst =>
       dst ++ map first_byte (firstn (Z.to_nat n) keys);
     KeyMayMatch := fun key filter w =>
       (existsb (Byte.eqb (first_byte key)) filter, w) |}.

(** A policy that answers "maybe" to everything and writes [total] bytes
    [0xff] per filter. *)
Definition padding_policy (total : nat) : FilterPolicy unit :=
  {| CreateFilter := fun _ _ dst => dst ++ repeat xff total;
     KeyMayMatch := fun _ _ w => (true, w) |}.

(** The number of bytes, and of keys, at which a [uint32_t] wraps to 0. *)
Abbreviation four_GiB := (Z.to_nat (2 ^ 32)) (only parsing).

(** A policy whose match routine counts its calls and answers by parity. *)
Definition flip_policy : FilterPolicy bool :=
  {| CreateFilter := fun _ _ dst => dst ++ [x01];
     KeyMayMatch := fun _ _ w => (w, negb w) |}.

(** A platform with signed [char] whose shifter takes the count modulo 64. *)
Definition platform : FilterBlockReader.Platform :=
  {| FilterBlockReader.char_is_signed := true;
     FilterBlockReader.shr_wide := fun x s => Z.shiftr x (s mod 64) |}.

(** Key "a" for the block at offset 0, an empty stretch up to offset 5000,
    then key "b" for the last block. *)
Definition sample_calls : list Call :=
  [CallAddKey [x61]; CallStartBlock 0; CallStartBlock 5000; CallAddKey [x62]].

(** A region with the one-byte filter "a" for its only bucket. *)
Definition one_filter_region : list byte :=
  [x61; x00; x00; x00; x00; x01; x00; x00; x00; x0b].

(** Regions without filter bytes whose directory holds the words 7 and 3,
    and the words 5 and 5, before the directory-start word 0. *)
Definition crossed_bounds_region : list byte :=
  [x07; x00; x00; x00; x03; x00; x00; x00; x00; x00; x00; x00; x0b].

Definition equal_bounds_region : list byte :=
  [x05; x00; x00; x00; x05; x00; x00; x00; x00; x00; x00; x00; x0b].

End Driver.

(** ** The abstract view of the builder and of the region

    Keys in [keys_] and filters in [result_] are laid out the same way: pieces
    one after another, with the vector of the positions where they start. *)

Module Layout.

(** Where piece [i] of the concatenation of [pieces] starts. *)
Definition pos (pieces : list (list byte)) (i : nat) : Z :=
  size (concat (firstn i pieces)).

(** The start of every piece, in order. *)
Definition starts (pieces : list (list byte)) : list Z :=
  map (pos pieces) (seq 0 (length pieces)).

End Layout.

Module Abstraction.
Import Coding FilterPolicy FilterBlockBuilder Layout.
Import FilterBlockReader(addr).

(** A closed bucket: the keys it was built from and its filter bytes. *)
Definition Bucket : Type := (list Slice * list byte)%type.

(** Key [k] is on its way into bucket [i]: still pending while [i] is the next
    bucket to close, or among the keys bucket [i] was built from. *)
Definition holds_key (k : Slice) (i : nat) (closed : list Bucket)
  (pending : list Slice) : Prop :=
  (length closed = i /\ In k pending) \/
  (exists bk, nth_error closed i = Some bk /\ In k (fst bk)).

(** Nothing that was on its way into a bucket is lost. *)
Definition advances (closed : list Bucket) (pending : list Slice)
  (closed' : list Bucket) (pending' : list Slice) : Prop :=
  forall k i, holds_key k i closed pending -> holds_key k i closed' pending'.

Section WithPolicy.
Context {W : Type} (policy_ : FilterPolicy W).

(** A bucket without keys has no filter bytes; any other has the bytes the
    policy appended when it was given the bucket's keys and their number as
    an [int]. *)
Definition bucket_ok (bk : Bucket) : Prop :=
  (fst bk = [] /\ snd bk = []) \/
  (fst bk <> [] /\
   exists dst,
     CreateFilter policy_ (fst bk) (to_int (size (fst bk))) dst =
     dst ++ snd bk).

(** The builder's members in terms of the buckets closed so far and the keys
    added since. *)
Record Inv (b : t) (closed : list Bucket) (pending : list Slice) : Prop := {
  inv_result : result_ b = concat (map snd closed);
  inv_offsets : filter_offsets_ b = map to_uint32 (starts (map snd closed));
  inv_keys : keys_ b = concat pending;
  inv_start : start_ b = starts pending;
  inv_buckets : Forall bucket_ok closed
}.

(** The builder as the first statement of [Finish] leaves it: the keys of the
    last block, if any, closed into one more bucket. *)
Definition flushed (b : t) : t :=
  if negb (Nat.eqb (length (start_ b)) 0) then GenerateFilter policy_ b else b.

End WithPolicy.

(** The region for the filters of the closed buckets, in bucket order. *)
Definition region (filters : list (list byte)) : list byte :=
  concat filters ++
  concat (map EncodeFixed32
            (map to_uint32 (starts filters) ++
             [to_uint32 (size (concat filters))])) ++
  [Z_to_byte FilterBlockBuilder.kFilterBaseLg].

(** The reader over that region. *)
Definition reader_of (filters : list (list byte)) : FilterBlockReader.t :=
  {| FilterBlockReader.data_ := addr 0;
     FilterBlockReader.offset_ := addr (size (concat filters));
     FilterBlockReader.num_ := size filters;
     FilterBlockReader.base_lg_ := FilterBlockBuilder.kFilterBaseLg |}.

End Abstraction.

(** ** The builder's calls as groups of keys

    What the calls amount to, without the flattened buffers: the keys of each
    closed bucket, in the order they were added, and the keys added since. *)

Module Buckets.
Import Coding FilterPolicy FilterBlockBuilder Layout Driver.

Definition Groups : Type := (list (list Slice) * list Slice)%type.

(** Closing a bucket takes the pending keys, all of them, and leaves none. *)
Definition close (g : Groups) : Groups := (fst g ++ [snd g], []).

Definition step (c : Call) (g : Groups) : option Groups :=
  match c with
  | CallAddKey key => Some (fst g, snd g ++ [key])
  | CallStartBlock block_offset =>
      let filter_index := block_offset / kFilterBase in
      if filter_index >=? size (fst g)
      then Some (Nat.iter (Z.to_nat (filter_index - size (fst g))) close g)
      else None
  end.

Fixpoint steps (calls : list Call) (g : Groups) : option Groups :=
  match calls with
  | [] => Some g
  | c :: rest =>
      match step c g with
      | None => None
      | Some g' => steps rest g'
      end
  end.

(** [Finish] closes one more bucket when keys are pending. *)
Definition finished (g : Groups) : list (list Slice) :=
  match snd g with
  | [] => fst g
  | _ :: _ => fst g ++ [snd g]
  end.

(** The assertions of the [StartBlock] calls at the given offsets, on a
    builder with [closed] buckets: each bucket index is at least the number
    of buckets closed before the call, which the call then raises to it. *)
Fixpoint asserts_hold (closed : Z) (offsets : list Z) : Prop :=
  match offsets with
  | [] => True
  | o :: rest =>
      closed <= o / kFilterBase /\ asserts_hold (o / kFilterBase) rest
  end.

Section WithPolicy.
Context {W : Type} (policy_ : FilterPolicy W).

(** The bytes [CreateFilter] leaves after [dst] when it is given [keys] and
    their number as an [int]; a bucket without keys gets none, and
    [CreateFilter] is not called for it. *)
Definition filter_for (keys : list Slice) (dst : list byte) : list byte :=
  match keys with
  | [] => []
  | _ :: _ =>
      skipn (length dst) (CreateFilter policy_ keys (to_int (size keys)) dst)
  end.

(** The filters of the groups in order, each made after those before it. *)
Fixpoint filters_from (dst : list byte) (groups : list (list Slice))
  : list (list byte) :=
  match groups with
  | [] => []
  | keys :: rest =>
      filter_for keys dst :: filters_from (dst ++ filter_for keys dst) rest
  end.

(** The builder's members for the groups [g]. *)
Record Rep (b : t) (g : Groups) : Prop := {
  rep_result : result_ b = concat (filters_from [] (fst g));
  rep_offsets :
    filter_offsets_ b = map to_uint32 (starts (filters_from [] (fst g)));
  rep_keys : keys_ b = concat (snd g);
  rep_start : start_ b = starts (snd g)
}.

Definition Rep_opt (ob : option t) (og : option Groups) : Prop :=
  match ob, og with
  | Some b, Some g => Rep b g
  | None, None => True
  | _, _ => False
  end.

End WithPolicy.

End Buckets.

(** * Properties *)

(** ** Bytes and fixed-width integers *)

Lemma size_nonneg {A} (l : list A) : 0 <= size l.
Proof. unfold size. lia. Qed.

Lemma size_app {A} (l1 l2 : list A) : size (l1 ++ l2) = size l1 + size l2.
Proof. unfold size. rewrite length_app. lia. Qed.


Lemma byte_to_Z_range (b : byte) : 0 <= byte_to_Z b < 256.
Proof.
  unfold byte_to_Z. pose proof (Byte.to_N_bounded b). lia.
Qed.

Lemma byte_to_Z_to_byte (z : Z) : byte_to_Z (Z_to_byte z) = z mod 256.
Proof.
  unfold byte_to_Z, Z_to_byte.
  pose proof (Z.mod_pos_bound z 256 ltac:(lia)) as Hz.
  destruct (Byte.of_N (Z.to_N (z mod 256))) as [b|] eqn:E.
  - apply Byte.to_of_N in E. rewrite E. lia.
  - apply Byte.of_N_None_iff in E. lia.
Qed.

Lemma to_uint32_small (z : Z) : 0 <= z < 2 ^ 32 -> to_uint32 z = z.
Proof. intros H. unfold to_uint32. apply Z.mod_small. exact H. Qed.

Lemma to_int_small (z : Z) : 0 <= z < 2 ^ 31 -> to_int z = z.
Proof. intros H. unfold to_int. rewrite Z.mod_small by lia. lia. Qed.

Lemma to_uint32_range (z : Z) : 0 <= to_uint32 z < 2 ^ 32.
Proof. unfold to_uint32. apply Z.mod_pos_bound. lia. Qed.

Module CodingFacts.
Import Coding.

Lemma EncodeFixed32_size (v : Z) : size (EncodeFixed32 v) = 4.
Proof. reflexivity. Qed.

Lemma DecodeFixed32_bytes_nonneg (bs : list byte) : 0 <= DecodeFixed32_bytes bs.
Proof.
  unfold DecodeFixed32_bytes.
  destruct bs as [|b0 [|b1 [|b2 [|b3 [|? ?]]]]]; try lia.
  pose proof (byte_to_Z_range b0). pose proof (byte_to_Z_range b1).
  pose proof (byte_to_Z_range b2). pose proof (byte_to_Z_range b3).
  repeat (apply Z.lor_nonneg; split); try apply Z.shiftl_nonneg; lia.
Qed.

(** Bit [i] of the byte that [Z_to_byte] makes of [v >> k]. *)
Lemma byte_of_shift_bit (v k i : Z) :
  0 <= k -> 0 <= i ->
  Z.testbit (byte_to_Z (Z_to_byte (Z.shiftr v k))) i =
  (i <? 8) && Z.testbit v (i + k).
Proof.
  intros Hk Hi. rewrite byte_to_Z_to_byte.
  change 256 with (2 ^ 8). rewrite Z.testbit_mod_pow2 by lia.
  rewrite Z.shiftr_spec by lia. reflexivity.
Qed.

(** Decoding what was encoded gives the value as a [uint32_t]. *)
Lemma DecodeFixed32_EncodeFixed32 (v : Z) :
  DecodeFixed32_bytes (EncodeFixed32 v) = to_uint32 v.
Proof.
  unfold DecodeFixed32_bytes, EncodeFixed32, to_uint32.
  apply Z.bits_inj'. intros i Hi.
  rewrite !Z.lor_spec, !Z.shiftl_spec by lia.
  rewrite Z.testbit_mod_pow2 by lia.
  replace (Z_to_byte v) with (Z_to_byte (Z.shiftr v 0))
    by (rewrite Z.shiftr_0_r; reflexivity).
  destruct (Z.ltb_spec i 8); [|destruct (Z.ltb_spec i 16);
    [|destruct (Z.ltb_spec i 24); [|destruct (Z.ltb_spec i 32)]]].
  - rewrite byte_of_shift_bit by lia.
    rewrite (Z.testbit_neg_r _ (i - 8)), (Z.testbit_neg_r _ (i - 16)),
      (Z.testbit_neg_r _ (i - 24)) by lia.
    replace (i <? 8) with true by (symmetry; apply Z.ltb_lt; lia).
    replace (i <? 32) with true by (symmetry; apply Z.ltb_lt; lia).
    rewrite Z.add_0_r. simpl. rewrite !orb_false_r. reflexivity.
  - rewrite !byte_of_shift_bit by lia.
    rewrite (Z.testbit_neg_r _ (i - 16)), (Z.testbit_neg_r _ (i - 24)) by lia.
    replace (i <? 8) with false by (symmetry; apply Z.ltb_ge; lia).
    replace (i - 8 <? 8) with true by (symmetry; apply Z.ltb_lt; lia).
    replace (i <? 32) with true by (symmetry; apply Z.ltb_lt; lia).
    replace (i - 8 + 8) with i by lia. simpl. rewrite !orb_false_r. reflexivity.
  - rewrite !byte_of_shift_bit by lia.
    rewrite (Z.testbit_neg_r _ (i - 24)) by lia.
    replace (i <? 8) with false by (symmetry; apply Z.ltb_ge; lia).
    replace (i - 8 <? 8) with false by (symmetry; apply Z.ltb_ge; lia).
    replace (i - 16 <? 8) with true by (symmetry; apply Z.ltb_lt; lia).
    replace (i <? 32) with true by (symmetry; apply Z.ltb_lt; lia).
    replace (i - 16 + 16) with i by lia. simpl. rewrite !orb_false_r. reflexivity.
  - rewrite !byte_of_shift_bit by lia.
    replace (i <? 8) with false by (symmetry; apply Z.ltb_ge; lia).
    replace (i - 8 <? 8) with false by (symmetry; apply Z.ltb_ge; lia).
    replace (i - 16 <? 8) with false by (symmetry; apply Z.ltb_ge; lia).
    replace (i - 24 <? 8) with true by (symmetry; apply Z.ltb_lt; lia).
    replace (i <? 32) with true by (symmetry; apply Z.ltb_lt; lia).
    replace (i - 24 + 24) with i by lia. simpl. reflexivity.
  - rewrite !byte_of_shift_bit by lia.
    replace (i <? 8) with false by (symmetry; apply Z.ltb_ge; lia).
    replace (i - 8 <? 8) with false by (symmetry; apply Z.ltb_ge; lia).
    replace (i - 16 <? 8) with false by (symmetry; apply Z.ltb_ge; lia).
    replace (i - 24 <? 8) with false by (symmetry; apply Z.ltb_ge; lia).
    replace (i <? 32) with false by (symmetry; apply Z.ltb_ge; lia).
    reflexivity.
Qed.

(** [PutFixed32] over a vector of words appends their encodings in order. *)
Lemma fold_PutFixed32 (words : list Z) (dst : list byte) :
  fold_left PutFixed32 words dst = dst ++ concat (map EncodeFixed32 words).
Proof.
  revert dst. induction words as [|w words IH]; intros dst; simpl.
  - rewrite app_nil_r. reflexivity.
  - rewrite IH. unfold PutFixed32. rewrite <- app_assoc. reflexivity.
Qed.

Lemma concat_EncodeFixed32_size (words : list Z) :
  size (concat (map EncodeFixed32 words)) = 4 * size words.
Proof.
  induction words as [|w words IH].
  - reflexivity.
  - simpl map. rewrite concat_cons, size_app, IH, EncodeFixed32_size.
    unfold size. simpl length. lia.
Qed.

End CodingFacts.

(** ** Consecutive pieces of a buffer *)

Module LayoutFacts.
Import Layout.

Lemma starts_length pieces : length (starts pieces) = length pieces.
Proof. unfold starts. rewrite length_map, length_seq. reflexivity. Qed.

Lemma pos_all pieces : pos pieces (length pieces) = size (concat pieces).
Proof. unfold pos. rewrite firstn_all. reflexivity. Qed.

Lemma pos_app_low pieces more i :
  (i <= length pieces)%nat -> pos (pieces ++ more) i = pos pieces i.
Proof.
  intros Hi. unfold pos. rewrite firstn_app.
  replace (i - length pieces)%nat with 0%nat by lia.
  simpl. rewrite app_nil_r. reflexivity.
Qed.

Lemma starts_snoc pieces x :
  starts (pieces ++ [x]) = starts pieces ++ [size (concat pieces)].
Proof.
  unfold starts. rewrite length_app. simpl length.
  rewrite Nat.add_1_r, seq_S, map_app. simpl.
  rewrite (pos_app_low pieces [x] (Nat.le_refl _)), pos_all.
  f_equal. apply map_ext_in. intros i Hi. apply in_seq in Hi.
  apply pos_app_low. lia.
Qed.

Lemma nth_starts pieces i :
  (i <= length pieces)%nat ->
  nth i (starts pieces ++ [size (concat pieces)]) 0 = pos pieces i.
Proof.
  intros Hi. destruct (Nat.eq_dec i (length pieces)) as [->|Hne].
  - rewrite app_nth2 by (rewrite starts_length; lia).
    rewrite starts_length, Nat.sub_diag. simpl. symmetry. apply pos_all.
  - rewrite app_nth1 by (rewrite starts_length; lia).
    unfold starts.
    rewrite (nth_indep _ 0 (pos pieces 0))
      by (rewrite length_map, length_seq; lia).
    rewrite map_nth, seq_nth by lia. reflexivity.
Qed.

Lemma firstn_succ_nth {A} (l : list A) (d : A) i :
  (i < length l)%nat -> firstn (S i) l = firstn i l ++ [nth i l d].
Proof.
  revert i. induction l as [|x l IH]; intros i Hi; simpl in Hi.
  - lia.
  - destruct i as [|i]; [reflexivity|].
    change (firstn (S (S i)) (x :: l)) with (x :: firstn (S i) l).
    rewrite (IH i) by lia. reflexivity.
Qed.

Lemma pos_succ pieces i :
  (i < length pieces)%nat ->
  pos pieces (S i) = pos pieces i + size (nth i pieces []).
Proof.
  intros Hi. unfold pos. rewrite (firstn_succ_nth pieces [] Hi).
  rewrite concat_app, size_app. simpl. rewrite app_nil_r. reflexivity.
Qed.

Lemma pos_mono pieces i j : (i <= j)%nat -> pos pieces i <= pos pieces j.
Proof.
  intros Hij. unfold pos.
  replace j with (i + (j - i))%nat by lia.
  rewrite <- (firstn_skipn i (firstn (i + (j - i)) pieces)) at 1.
  rewrite firstn_firstn. replace (Nat.min i (i + (j - i))) with i by lia.
  rewrite concat_app, size_app.
  pose proof (size_nonneg (concat (skipn i (firstn (i + (j - i)) pieces)))).
  lia.
Qed.

Lemma pos_nonneg pieces i : 0 <= pos pieces i.
Proof. apply size_nonneg. Qed.

Lemma pos_le_total pieces i : pos pieces i <= size (concat pieces).
Proof.
  destruct (Nat.le_gt_cases i (length pieces)) as [H|H].
  - rewrite <- pos_all. apply pos_mono. exact H.
  - unfold pos. rewrite firstn_all2 by lia. lia.
Qed.

Lemma substr_app_mid (p m q : list byte) :
  substr (p ++ m ++ q) (size p) (size m) = m.
Proof.
  unfold substr, size. rewrite !Nat2Z.id.
  rewrite skipn_app, skipn_all, Nat.sub_diag. simpl.
  rewrite firstn_app, firstn_all, Nat.sub_diag. simpl.
  apply app_nil_r.
Qed.

(** Bytes appended after the range do not change what is read from it. *)
Lemma substr_app_low (s more : list byte) (a len : Z) :
  0 <= a -> 0 <= len -> a + len <= size s ->
  substr (s ++ more) a len = substr s a len.
Proof.
  intros Ha Hl Hs. unfold substr, size in *.
  rewrite skipn_app, firstn_app, length_skipn.
  replace (Z.to_nat len - (length s - Z.to_nat a))%nat with 0%nat by lia.
  simpl. apply app_nil_r.
Qed.

Lemma concat_split_nth (pieces : list (list byte)) i :
  (i < length pieces)%nat ->
  concat pieces =
  concat (firstn i pieces) ++ nth i pieces [] ++ concat (skipn (S i) pieces).
Proof.
  intros Hi.
  rewrite <- (firstn_skipn_middle i pieces (x := nth i pieces [])) at 1
    by (apply nth_error_nth'; exact Hi).
  rewrite concat_app, concat_cons. reflexivity.
Qed.

(** Piece [i] is read back from its start with its length. *)
Lemma substr_piece pieces i :
  (i < length pieces)%nat ->
  substr (concat pieces) (pos pieces i) (pos pieces (S i) - pos pieces i) =
  nth i pieces [].
Proof.
  intros Hi. rewrite (pos_succ pieces Hi).
  replace (pos pieces i + size (nth i pieces []) - pos pieces i)
    with (size (nth i pieces [])) by lia.
  rewrite (concat_split_nth pieces Hi) at 1. apply substr_app_mid.
Qed.

Lemma map_nth_seq {A} (l : list A) (d : A) :
  map (fun i => nth i l d) (seq 0 (length l)) = l.
Proof.
  apply (nth_ext _ _ d d).
  - rewrite length_map, length_seq. reflexivity.
  - intros n Hn. rewrite length_map, length_seq in Hn.
    rewrite (nth_indep _ d (nth 0 l d)) by (rewrite length_map, length_seq; lia).
    rewrite (map_nth (fun i => nth i l d) (seq 0 (length l)) 0%nat n).
    rewrite seq_nth by lia. reflexivity.
Qed.

(** The loop of [GenerateFilter] that rebuilds the keys from [keys_] and
    [start_] returns the keys that were added, in order. *)
Lemma split_flattened (keys : list (list byte)) :
  map (fun i =>
         substr (concat keys)
           (nth i (starts keys ++ [size (concat keys)]) 0)
           (nth (i + 1) (starts keys ++ [size (concat keys)]) 0 -
            nth i (starts keys ++ [size (concat keys)]) 0))
      (seq 0 (length keys)) = keys.
Proof.
  transitivity (map (fun i => nth i keys []) (seq 0 (length keys)));
    [|apply map_nth_seq].
  apply map_ext_in. intros i Hi. apply in_seq in Hi.
  rewrite !nth_starts by lia. rewrite Nat.add_1_r.
  apply substr_piece. lia.
Qed.

End LayoutFacts.

(** ** The builder's representation invariant *)

Module BuilderFacts.
Import Coding CodingFacts FilterPolicy FilterBlockBuilder Driver.
Import Layout LayoutFacts Abstraction.

Section WithPolicy.
Context {W : Type} (policy_ : FilterPolicy W).

Lemma Inv_new : Inv policy_ FilterBlockBuilder [] [].
Proof. split; try reflexivity. constructor. Qed.

Lemma Inv_count b closed pending :
  Inv policy_ b closed pending -> length (filter_offsets_ b) = length closed.
Proof.
  intros H. rewrite (inv_offsets H).
  rewrite length_map, starts_length, length_map. reflexivity.
Qed.

Lemma Inv_pending_count b closed pending :
  Inv policy_ b closed pending -> length (start_ b) = length pending.
Proof. intros H. rewrite (inv_start H). apply starts_length. Qed.

Lemma Inv_AddKey b closed pending key :
  Inv policy_ b closed pending -> Inv policy_ (AddKey key b) closed (pending ++ [key]).
Proof.
  intros H. split; simpl.
  - apply (inv_result H).
  - apply (inv_offsets H).
  - rewrite (inv_keys H), concat_app. simpl. rewrite app_nil_r. reflexivity.
  - rewrite (inv_start H), (inv_keys H). symmetry. apply starts_snoc.
  - apply (inv_buckets H).
Qed.

Lemma advances_refl closed pending : advances closed pending closed pending.
Proof. intros k i H. exact H. Qed.

Lemma advances_trans c1 p1 c2 p2 c3 p3 :
  advances c1 p1 c2 p2 -> advances c2 p2 c3 p3 -> advances c1 p1 c3 p3.
Proof. intros H12 H23 k i H. apply H23, H12, H. Qed.

Lemma advances_AddKey closed pending key :
  advances closed pending closed (pending ++ [key]).
Proof.
  intros k i [[Hl Hin]|H].
  - left. split; [exact Hl|]. apply in_or_app. left. exact Hin.
  - right. exact H.
Qed.

Lemma advances_close closed pending filter :
  advances closed pending (closed ++ [(pending, filter)]) [].
Proof.
  intros k i [[Hl Hin]|[bk [Hn Hin]]]; right.
  - exists (pending, filter). split; [|exact Hin].
    rewrite nth_error_app2 by lia. rewrite Hl, Nat.sub_diag. reflexivity.
  - exists bk. split; [|exact Hin].
    rewrite nth_error_app1; [exact Hn|].
    apply nth_error_Some. rewrite Hn. discriminate.
Qed.

Lemma starts_map_snd_snoc (closed : list Bucket) (bk : Bucket) :
  starts (map snd (closed ++ [bk])) =
  starts (map snd closed) ++ [size (concat (map snd closed))].
Proof. rewrite map_app. simpl. apply starts_snoc. Qed.

(** [GenerateFilter] closes one bucket over the pending keys. *)
Lemma Inv_GenerateFilter b closed pending :
  appends policy_ ->
  Inv policy_ b closed pending ->
  exists filter,
    Inv policy_ (GenerateFilter policy_ b) (closed ++ [(pending, filter)]) [] /\
    result_ (GenerateFilter policy_ b) = result_ b ++ filter.
Proof.
  intros Happ H. unfold GenerateFilter.
  rewrite (Inv_pending_count H).
  destruct pending as [|k pending].
  - exists []. simpl. split; [|rewrite app_nil_r; reflexivity].
    split; simpl.
    + rewrite (inv_result H), map_app, concat_app. simpl.
      rewrite app_nil_r. reflexivity.
    + rewrite (inv_offsets H), starts_map_snd_snoc, map_app, (inv_result H).
      reflexivity.
    + apply (inv_keys H).
    + apply (inv_start H).
    + apply Forall_app. split; [apply (inv_buckets H)|].
      constructor; [|constructor]. left. split; reflexivity.
  - set (pend := k :: pending) in *.
    assert (Hne : Nat.eqb (length pend) 0 = false) by reflexivity.
    rewrite Hne. cbv zeta.
    rewrite (inv_start H), (inv_keys H).
    rewrite (split_flattened pend).
    change (Z.of_nat (length pend)) with (size pend).
    destruct (Happ pend (to_int (size pend)) (result_ b)) as [filter Hf].
    exists filter. rewrite Hf. simpl. split; [|reflexivity].
    split; simpl.
    + rewrite (inv_result H), map_app, concat_app. simpl.
      rewrite app_nil_r. reflexivity.
    + rewrite starts_map_snd_snoc, map_app, <- (inv_offsets H), (inv_result H).
      reflexivity.
    + reflexivity.
    + reflexivity.
    + apply Forall_app. split; [apply (inv_buckets H)|].
      constructor; [|constructor]. right. simpl. split; [discriminate|].
      exists (result_ b). exact Hf.
Qed.

(** *** The loop of [StartBlock] *)

Lemma GenerateFilter_count b :
  size (filter_offsets_ (GenerateFilter policy_ b)) = size (filter_offsets_ b) + 1.
Proof.
  rewrite GenerateFilter_offsets, size_app. reflexivity.
Qed.

(** The loop runs [GenerateFilter] once per bucket that is missing. *)
Lemma StartBlock_loop_iter filter_index b :
  StartBlock_loop policy_ filter_index b =
  Nat.iter (Z.to_nat (filter_index - size (filter_offsets_ b)))
    (GenerateFilter policy_) b.
Proof.
  funelim (StartBlock_loop policy_ filter_index b).
  - match goal with IH : StartBlock_loop _ _ _ = Nat.iter _ _ _ |- _ =>
      rewrite IH end.
    rewrite GenerateFilter_count.
    replace (Z.to_nat (filter_index - size (filter_offsets_ b)))
      with (S (Z.to_nat (filter_index - (size (filter_offsets_ b) + 1))))
      by lia.
    rewrite Nat.iter_succ_r. reflexivity.
  - replace (Z.to_nat (filter_index - size (filter_offsets_ b))) with 0%nat
      by lia.
    reflexivity.
Qed.

Lemma iter_GenerateFilter_count n b :
  size (filter_offsets_ (Nat.iter n (GenerateFilter policy_) b)) =
  size (filter_offsets_ b) + Z.of_nat n.
Proof.
  induction n as [|n IH].
  - simpl. lia.
  - rewrite Nat.iter_succ, GenerateFilter_count, IH. lia.
Qed.

Lemma iter_GenerateFilter_prefix n b :
  exists entries,
    filter_offsets_ (Nat.iter n (GenerateFilter policy_) b) =
    filter_offsets_ b ++ entries /\ length entries = n.
Proof.
  induction n as [|n [entries [IH Hl]]].
  - exists []. simpl. rewrite app_nil_r. split; reflexivity.
  - rewrite Nat.iter_succ, GenerateFilter_offsets, IH, <- app_assoc.
    eexists. split; [reflexivity|]. rewrite length_app, Hl. simpl. lia.
Qed.

(** Once the loop has run, no key is pending. *)
Lemma iter_GenerateFilter_start n b :
  (0 < n)%nat -> start_ (Nat.iter n (GenerateFilter policy_) b) = [].
Proof.
  intros Hn. destruct n as [|n]; [lia|]. clear Hn.
  rewrite Nat.iter_succ.
  induction n as [|n IH].
  - simpl. unfold GenerateFilter.
    destruct (start_ b) as [|s l] eqn:E; simpl; [reflexivity|reflexivity].
  - rewrite Nat.iter_succ. unfold GenerateFilter at 1. rewrite IH. reflexivity.
Qed.

Lemma StartBlock_asserted block_offset b :
  block_offset / kFilterBase >= size (filter_offsets_ b) ->
  StartBlock policy_ block_offset b =
  Some (Nat.iter
          (Z.to_nat (block_offset / kFilterBase - size (filter_offsets_ b)))
          (GenerateFilter policy_) b).
Proof.
  intros Hpre. unfold StartBlock. cbv zeta.
  destruct (Z.geb_spec (block_offset / kFilterBase) (size (filter_offsets_ b)));
    [|lia].
  rewrite StartBlock_loop_iter. reflexivity.
Qed.

Lemma StartBlock_Some block_offset b b' :
  StartBlock policy_ block_offset b = Some b' ->
  block_offset / kFilterBase >= size (filter_offsets_ b).
Proof.
  unfold StartBlock. cbv zeta.
  destruct (Z.geb_spec (block_offset / kFilterBase) (size (filter_offsets_ b)));
    [lia|discriminate].
Qed.

(** The lemmas below also follow a property [P] of the keys of the closed
    buckets: a bucket is closed over the keys that were pending, or over
    none. *)
Lemma iter_GenerateFilter_Inv (P : list Slice -> Prop) n b closed pending :
  appends policy_ ->
  Inv policy_ b closed pending ->
  Forall (fun bk => P (fst bk)) closed -> P pending -> P [] ->
  exists closed' pending',
    Inv policy_ (Nat.iter n (GenerateFilter policy_) b) closed' pending' /\
    advances closed pending closed' pending' /\
    Forall (fun bk => P (fst bk)) closed' /\ P pending'.
Proof.
  intros Happ H Hclosed Hpending Hnil.
  induction n as [|n [closed' [pending' [IH [Hadv [Hc' Hp']]]]]].
  - exists closed, pending.
    split; [exact H|]. split; [apply advances_refl|]. split; assumption.
  - rewrite Nat.iter_succ.
    destruct (Inv_GenerateFilter Happ IH) as [filter [H' _]].
    exists (closed' ++ [(pending', filter)]), []. split; [exact H'|].
    split; [eapply advances_trans; [exact Hadv|apply advances_close]|].
    split; [|exact Hnil].
    apply Forall_app. split; [exact Hc'|].
    constructor; [exact Hp'|constructor].
Qed.

Lemma call_Inv (P : list Slice -> Prop) c b b' closed pending :
  appends policy_ ->
  Inv policy_ b closed pending ->
  Forall (fun bk => P (fst bk)) closed -> P pending -> P [] ->
  call policy_ c b = Some b' ->
  exists closed' pending',
    Inv policy_ b' closed' pending' /\
    advances closed pending closed' pending' /\
    Forall (fun bk => P (fst bk)) closed'.
Proof.
  intros Happ H Hclosed Hpending Hnil Hc.
  destruct c as [block_offset|key]; simpl in Hc.
  - pose proof (StartBlock_Some _ _ Hc) as Hpre.
    rewrite (StartBlock_asserted _ _ Hpre) in Hc. injection Hc as <-.
    destruct (@iter_GenerateFilter_Inv P
                (Z.to_nat (block_offset / kFilterBase -
                           size (filter_offsets_ b)))
                b closed pending Happ H Hclosed Hpending Hnil)
      as [closed' [pending' [H' [Hadv [Hc' _]]]]].
    exists closed', pending'. split; [exact H'|]. split; assumption.
  - injection Hc as <-. exists closed, (pending ++ [key]).
    split; [apply Inv_AddKey; exact H|].
    split; [apply advances_AddKey|exact Hclosed].
Qed.

(** [P] holds of the keys of every closed bucket when it holds of the keys
    that are pending after any number of the calls. *)
Lemma run_Inv (P : list Slice -> Prop) calls b b' closed pending :
  appends policy_ ->
  Inv policy_ b closed pending ->
  Forall (fun bk => P (fst bk)) closed -> P [] ->
  (forall pre post b1 closed1 pending1,
     calls = pre ++ post ->
     run policy_ pre b = Some b1 ->
     Inv policy_ b1 closed1 pending1 -> P pending1) ->
  run policy_ calls b = Some b' ->
  exists closed' pending',
    Inv policy_ b' closed' pending' /\
    advances closed pending closed' pending' /\
    Forall (fun bk => P (fst bk)) closed'.
Proof.
  intros Happ. revert b closed pending.
  induction calls as [|c calls IH];
    intros b closed pending H Hclosed Hnil Hpre Hr; simpl in Hr.
  - injection Hr as <-. exists closed, pending.
    split; [exact H|]. split; [apply advances_refl|exact Hclosed].
  - destruct (call policy_ c b) as [b1|] eqn:Hc; [|discriminate].
    assert (Hpending : P pending)
      by (apply (Hpre [] (c :: calls) b closed pending eq_refl eq_refl H)).
    destruct (call_Inv P _ Happ H Hclosed Hpending Hnil Hc)
      as [c1 [p1 [H1 [Ha1 Hc1]]]].
    destruct (IH _ _ _ H1 Hc1 Hnil) as [c2 [p2 [H2 [Ha2 Hc2]]]].
    + intros pre post b2 closed2 pending2 Hsplit Hrun2.
      apply (Hpre (c :: pre) post b2 closed2 pending2).
      * rewrite Hsplit. reflexivity.
      * simpl. rewrite Hc. exact Hrun2.
    + exact Hr.
    + exists c2, p2. split; [exact H2|]. split; [|exact Hc2].
      eapply advances_trans; eassumption.
Qed.

Lemma run_app calls1 calls2 b :
  run policy_ (calls1 ++ calls2) b =
  match run policy_ calls1 b with
  | None => None
  | Some b1 => run policy_ calls2 b1
  end.
Proof.
  revert b. induction calls1 as [|c calls1 IH]; intros b; simpl.
  - reflexivity.
  - destruct (call policy_ c b); [apply IH|reflexivity].
Qed.

(** Non-decreasing offsets pass every assertion. *)
Lemma legal_run calls : forall lo b,
  non_decreasing_from lo (block_offsets calls) ->
  0 <= lo ->
  size (filter_offsets_ b) <= lo / kFilterBase ->
  exists b', run policy_ calls b = Some b'.
Proof.
  induction calls as [|c calls IH]; intros lo b Hnd Hlo Hsz; simpl.
  - exists b. reflexivity.
  - destruct c as [block_offset|key]; simpl in *.
    + destruct Hnd as [[Hle Hlt] Hnd].
      assert (Hdiv : lo / kFilterBase <= block_offset / kFilterBase)
        by (apply Z.div_le_mono; [reflexivity|exact Hle]).
      rewrite StartBlock_asserted by lia.
      apply (IH block_offset); [exact Hnd|lia|].
      rewrite iter_GenerateFilter_count. lia.
    + apply (IH lo); [exact Hnd|exact Hlo|exact Hsz].
Qed.

(** *** [Finish] *)

(** The finished region: the filters, one word per bucket, the word that
    locates the first of these, and the shift. *)
Lemma Finish_layout b :
  fst (Finish policy_ b) =
  result_ (flushed policy_ b) ++
  concat (map EncodeFixed32
            (filter_offsets_ (flushed policy_ b) ++
             [to_uint32 (size (result_ (flushed policy_ b)))])) ++
  [Z_to_byte kFilterBaseLg].
Proof.
  unfold Finish, flushed. cbv zeta. simpl fst.
  set (b1 := if negb (Nat.eqb (length (start_ b)) 0)
             then GenerateFilter policy_ b else b).
  unfold PutFixed32. rewrite fold_PutFixed32.
  rewrite map_app, concat_app. simpl. rewrite <- !app_assoc. reflexivity.
Qed.

Lemma Finish_members b :
  filter_offsets_ (snd (Finish policy_ b)) = filter_offsets_ (flushed policy_ b) /\
  result_ (snd (Finish policy_ b)) = fst (Finish policy_ b).
Proof. unfold Finish, flushed. cbv zeta. simpl. split; reflexivity. Qed.

Lemma flushed_Inv (P : list Slice -> Prop) b closed pending :
  appends policy_ ->
  Inv policy_ b closed pending ->
  Forall (fun bk => P (fst bk)) closed -> P pending ->
  exists closed',
    Inv policy_ (flushed policy_ b) closed' [] /\
    advances closed pending closed' [] /\
    Forall (fun bk => P (fst bk)) closed'.
Proof.
  intros Happ H Hclosed Hpending. unfold flushed.
  rewrite (Inv_pending_count H).
  destruct pending as [|k pending]; simpl.
  - exists closed. split; [exact H|]. split; [apply advances_refl|exact Hclosed].
  - destruct (Inv_GenerateFilter Happ H) as [filter [H' _]].
    eexists. split; [exact H'|]. split; [apply advances_close|].
    apply Forall_app. split; [exact Hclosed|].
    constructor; [exact Hpending|constructor].
Qed.



End WithPolicy.
End BuilderFacts.

(** ** Reading the region back *)

Module ReaderFacts.
Import Coding CodingFacts FilterPolicy FilterBlockReader Layout LayoutFacts.

Lemma read_in_range (mem : list byte) (a len : Z) :
  0 <= a -> 0 <= len -> a + len <= size mem ->
  read mem a len = Some (substr mem a len).
Proof.
  intros Ha Hl Hs. unfold read.
  destruct (Z.leb_spec 0 a); [|lia].
  destruct (Z.leb_spec 0 len); [|lia].
  destruct (Z.leb_spec (a + len) (size mem)); [|lia].
  reflexivity.
Qed.

Lemma read_app_mid (p m q : list byte) :
  read (p ++ m ++ q) (size p) (size m) = Some m.
Proof.
  rewrite read_in_range.
  - rewrite substr_app_mid. reflexivity.
  - apply size_nonneg.
  - apply size_nonneg.
  - rewrite !size_app. pose proof (size_nonneg q). lia.
Qed.

Lemma substr_length (mem : list byte) (a len : Z) :
  0 <= a -> 0 <= len -> a + len <= size mem ->
  length (substr mem a len) = Z.to_nat len.
Proof.
  intros Ha Hl Hs. unfold substr, size in *.
  rewrite length_firstn, length_skipn. lia.
Qed.

(** A word read inside the buffer is a [uint32_t]. *)
Lemma DecodeFixed32_bytes_range (bs : list byte) :
  0 <= DecodeFixed32_bytes bs < 2 ^ 32.
Proof.
  split; [apply DecodeFixed32_bytes_nonneg|].
  unfold DecodeFixed32_bytes.
  destruct bs as [|b0 [|b1 [|b2 [|b3 [|? ?]]]]]; try lia.
  pose proof (byte_to_Z_range b0). pose proof (byte_to_Z_range b1).
  pose proof (byte_to_Z_range b2). pose proof (byte_to_Z_range b3).
  assert (Hhigh : forall b i, 0 <= b < 256 -> 8 <= i -> Z.testbit b i = false).
  { intros b i Hb Hi. rewrite <- (Z.mod_small b 256) by lia.
    change 256 with (2 ^ 8). apply Z.mod_pow2_bits_high. lia. }
  set (x := Z.lor _ _).
  assert (Hx : x = x mod 2 ^ 32).
  { apply Z.bits_inj'. intros i Hi. rewrite Z.testbit_mod_pow2 by lia.
    destruct (Z.ltb_spec i 32); [reflexivity|]. simpl. unfold x.
    rewrite !Z.lor_spec, !Z.shiftl_spec by lia.
    rewrite !Hhigh by lia. reflexivity. }
  rewrite Hx. apply Z.mod_pos_bound. lia.
Qed.

Lemma DecodeFixed32_range mem p v :
  DecodeFixed32 mem p = Some v -> 0 <= v < 2 ^ 32.
Proof.
  destruct p as [|a]; simpl; [discriminate|].
  destruct (read mem a 4); simpl; [|discriminate].
  intros [= <-]. apply DecodeFixed32_bytes_range.
Qed.

Lemma DecodeFixed32_in_range mem a :
  0 <= a -> a + 4 <= size mem ->
  exists v, DecodeFixed32 mem (addr a) = Some v /\ 0 <= v < 2 ^ 32.
Proof.
  intros Ha Hs. simpl. rewrite read_in_range by lia. simpl.
  eexists. split; [reflexivity|apply DecodeFixed32_bytes_range].
Qed.

Lemma DecodeFixed32_word_mid (pre post : list byte) (ws1 ws2 : list Z) (w : Z) :
  DecodeFixed32 (pre ++ concat (map EncodeFixed32 (ws1 ++ w :: ws2)) ++ post)
    (addr (size pre + 4 * size ws1)) =
  Some (to_uint32 w).
Proof.
  rewrite map_app, concat_app. simpl map. rewrite concat_cons.
  rewrite <- concat_EncodeFixed32_size.
  set (before := concat (map EncodeFixed32 ws1)).
  set (after := concat (map EncodeFixed32 ws2)).
  replace (pre ++ (before ++ EncodeFixed32 w ++ after) ++ post)
    with ((pre ++ before) ++ EncodeFixed32 w ++ (after ++ post))
    by (rewrite <- !app_assoc; reflexivity).
  rewrite <- size_app. unfold DecodeFixed32.
  rewrite <- (EncodeFixed32_size w).
  rewrite read_app_mid. cbv [option_map].
  rewrite DecodeFixed32_EncodeFixed32. reflexivity.
Qed.

(** Word [i] of a vector of encoded words that starts after [pre]. *)
Lemma DecodeFixed32_word (pre post : list byte) (words : list Z) (i : nat) :
  (i < length words)%nat ->
  DecodeFixed32 (pre ++ concat (map EncodeFixed32 words) ++ post)
    (addr (size pre + 4 * Z.of_nat i)) =
  Some (to_uint32 (nth i words 0)).
Proof.
  intros Hi.
  destruct (nth_error_split words i (nth_error_nth' words 0 Hi))
    as [ws1 [ws2 [Hw Hl]]].
  rewrite Hw at 1. rewrite <- Hl. apply DecodeFixed32_word_mid.
Qed.
Section WithPlatform.
Variable pf : Platform.

Lemma char_to_size_t_small (c : byte) :
  byte_to_Z c < 128 -> char_to_size_t pf c = byte_to_Z c.
Proof.
  intros Hc. unfold char_to_size_t. cbv zeta.
  destruct (Z.leb_spec 128 (byte_to_Z c)); [lia|].
  rewrite andb_false_r. reflexivity.
Qed.

Lemma nth_error_last (xs : list byte) (c : byte) :
  nth_error (xs ++ [c]) (Z.to_nat (size (xs ++ [c]) - 1)) = Some c.
Proof.
  rewrite size_app. unfold size. simpl length.
  replace (Z.to_nat (Z.of_nat (length xs) + Z.of_nat 1 - 1)) with (length xs)
    by lia.
  rewrite nth_error_app2 by lia. rewrite Nat.sub_diag. reflexivity.
Qed.

(** The reader the constructor makes of a region laid out as [Finish] lays
    it out: the directory-start word is the size of the filter data as a
    [uint32_t]. *)
Lemma reader_of_layout (filters : list byte) (words : list Z) (shift : Z) :
  0 <= shift < 128 ->
  FilterBlockReader pf
    (filters ++
     concat (map EncodeFixed32 (words ++ [to_uint32 (size filters)])) ++
     [Z_to_byte shift]) =
  Some {| data_ := addr 0;
          offset_ := addr (to_uint32 (size filters));
          num_ := (size filters + 4 * size words - to_uint32 (size filters)) / 4;
          base_lg_ := shift |}.
Proof.
  intros Hshift. pose proof (size_nonneg filters) as HF0.
  pose proof (size_nonneg words) as Hw0.
  unfold FilterBlockReader. cbv zeta.
  set (out := filters ++ _ ++ _).
  assert (Hn : size out = size filters + 4 * size words + 5).
  { unfold out. rewrite !size_app, concat_EncodeFixed32_size, size_app.
    unfold size. simpl length. lia. }
  rewrite Hn.
  destruct (Z.ltb_spec (size filters + 4 * size words + 5) 5); [lia|].
  assert (Hlast : nth_error out (Z.to_nat (size filters + 4 * size words + 5 - 1))
                  = Some (Z_to_byte shift)).
  { rewrite <- Hn. unfold out. rewrite app_assoc. apply nth_error_last. }
  rewrite Hlast.
  replace (size filters + 4 * size words + 5 - 5)
    with (size filters + 4 * size words) by lia.
  unfold out. rewrite DecodeFixed32_word_mid.
  rewrite (@to_uint32_small (to_uint32 (size filters)))
    by apply to_uint32_range.
  assert (Hle : to_uint32 (size filters) <= size filters)
    by (unfold to_uint32; apply Z.mod_le; lia).
  destruct (Z.gtb_spec (to_uint32 (size filters))
              (size filters + 4 * size words)); [lia|].
  simpl ptr_add. simpl base_lg_.
  rewrite char_to_size_t_small
    by (rewrite byte_to_Z_to_byte, Z.mod_small; lia).
  rewrite byte_to_Z_to_byte, Z.mod_small by lia.
  reflexivity.
Qed.

(** The same when the filters take less than 4 GiB: the directory is found
    where it is, with one bucket per word. *)
Lemma reader_of_region (filters : list byte) (words : list Z) (shift : Z) :
  size filters < 2 ^ 32 ->
  0 <= shift < 128 ->
  FilterBlockReader pf
    (filters ++
     concat (map EncodeFixed32 (words ++ [to_uint32 (size filters)])) ++
     [Z_to_byte shift]) =
  Some {| data_ := addr 0;
          offset_ := addr (size filters);
          num_ := size words;
          base_lg_ := shift |}.
Proof.
  intros HF Hshift. pose proof (size_nonneg filters) as HF0.
  rewrite reader_of_layout by exact Hshift.
  rewrite to_uint32_small by lia.
  replace (size filters + 4 * size words - size filters) with (size words * 4)
    by lia.
  rewrite Z.div_mul by lia. reflexivity.
Qed.

(** What the constructor makes of any buffer. *)
Lemma FilterBlockReader_cases (contents : list byte) :
  exists r,
    FilterBlockReader pf contents = Some r /\
    ((degraded r /\
      (size contents < 5 \/
       exists last_word,
         DecodeFixed32 contents (addr (size contents - 5)) = Some last_word /\
         last_word > size contents - 5)) \/
     (5 <= size contents /\
      exists last_word,
        DecodeFixed32 contents (addr (size contents - 5)) = Some last_word /\
        0 <= last_word <= size contents - 5 /\
        last_word < 2 ^ 32 /\
        data_ r = addr 0 /\
        offset_ r = addr last_word /\
        num_ r = (size contents - 5 - last_word) / 4)).
Proof.
  unfold FilterBlockReader. cbv zeta.
  destruct (Z.ltb_spec (size contents) 5) as [Hlt|Hge].
  - eexists. split; [reflexivity|]. left.
    split; [repeat split|left; exact Hlt].
  - destruct (nth_error contents (Z.to_nat (size contents - 1))) as [c|] eqn:Hc.
    2:{ apply nth_error_None in Hc. unfold size in *. lia. }
    destruct (DecodeFixed32_in_range contents (a := size contents - 5))
      as [lw [Hlw Hr]]; [lia|lia|].
    rewrite Hlw.
    destruct (Z.gtb_spec lw (size contents - 5)) as [Hgt|Hle].
    + eexists. split; [reflexivity|]. left.
      split; [repeat split|]. right. exists lw. split; [reflexivity|lia].
    + eexists. split; [reflexivity|]. right. split; [exact Hge|].
      exists lw. simpl. repeat split; try reflexivity; lia.
Qed.

Lemma shr64_nonneg (x s : Z) : 0 <= x -> 0 <= shr64 pf x s.
Proof.
  intros Hx. unfold shr64. destruct (s <? 64).
  - apply Z.shiftr_nonneg. exact Hx.
  - unfold to_uint64. apply Z.mod_pos_bound. lia.
Qed.

Section WithPolicy.
Context {W : Type} (policy_ : FilterPolicy W).

(** A bucket index at or past the bucket count: "maybe", with nothing read. *)
Lemma KeyMayMatch_past_end contents r w block_offset key :
  num_ r <= shr64 pf block_offset (base_lg_ r) ->
  KeyMayMatch pf policy_ block_offset key (state contents r w) =
  Some (true, state contents r w).
Proof.
  intros Hi.
  cbv beta iota zeta delta
    [KeyMayMatch bind self ret lift_heap state heap this world].
  destruct (Z.ltb_spec (shr64 pf block_offset (base_lg_ r)) (num_ r)); [lia|].
  reflexivity.
Qed.

(** A bucket index below the bucket count, by the two words read. *)
Lemma KeyMayMatch_in_range contents r w block_offset key d o start limit :
  let index := shr64 pf block_offset (base_lg_ r) in
  index < num_ r ->
  data_ r = addr d ->
  offset_ r = addr o ->
  DecodeFixed32 contents (addr (o + index * 4)) = Some start ->
  DecodeFixed32 contents (addr (o + (index * 4 + 4))) = Some limit ->
  KeyMayMatch pf policy_ block_offset key (state contents r w) =
  if (start <=? limit) && (limit <=? to_uint64 (o - d)) then
    match read contents (d + start) (limit - start) with
    | None => None
    | Some filter =>
        let (res, w') := FilterPolicy.KeyMayMatch policy_ key filter w in
        Some (res, state contents r w')
    end
  else if start =? limit then Some (false, state contents r w)
  else Some (true, state contents r w).
Proof.
  intros index Hi Hd Ho Hs Hl. subst index.
  cbv beta iota zeta delta
    [KeyMayMatch bind self ret lift_heap state heap this world].
  destruct (Z.ltb_spec (shr64 pf block_offset (base_lg_ r)) (num_ r)); [|lia].
  rewrite Ho, Hd. cbn [ptr_add]. rewrite Hs, Hl.
  destruct (start <=? limit); cbn [andb].
  - cbv beta iota delta [ptr_diff ret].
    destruct (limit <=? to_uint64 (o - d)).
    + cbv beta iota delta [make_slice lift_heap call_KeyMayMatch heap this world].
      destruct (read contents (d + start) (limit - start)); reflexivity.
    + destruct (start =? limit); reflexivity.
  - destruct (start =? limit); reflexivity.
Qed.

(** The empty-filter marker on a reader the constructor made: when both
    words read for the bucket are [marker], the range test comes first, so a
    marker at or before the directory hands the empty filter to the policy,
    and only a marker beyond it takes the branch that answers [false]. *)
Lemma empty_marker_answer contents r w block_offset key d o marker :
  FilterBlockReader pf contents = Some r ->
  0 <= block_offset ->
  let index := shr64 pf block_offset (base_lg_ r) in
  index < num_ r ->
  data_ r = addr d ->
  offset_ r = addr o ->
  DecodeFixed32 contents (addr (o + index * 4)) = Some marker ->
  DecodeFixed32 contents (addr (o + (index * 4 + 4))) = Some marker ->
  KeyMayMatch pf policy_ block_offset key (state contents r w) =
  if marker <=? o - d then
    let (res, w') := FilterPolicy.KeyMayMatch policy_ key [] w in
    Some (res, state contents r w')
  else Some (false, state contents r w).
Proof.
  intros Hr Hoff index Hi Hd Ho Hs Hl.
  destruct (FilterBlockReader_cases contents)
    as [r0 [Hr0 [[[Hnull _] _]|[_ [lw [_ [Hlw [Hlw32 [Hd0 [Ho0 _]]]]]]]]]];
    rewrite Hr in Hr0; injection Hr0 as <-.
  { rewrite Hd in Hnull. discriminate. }
  rewrite Hd in Hd0. rewrite Ho in Ho0.
  injection Hd0 as ->. injection Ho0 as ->.
  pose proof (DecodeFixed32_range _ _ Hs) as Hm.
  rewrite (@KeyMayMatch_in_range contents r w block_offset key
             0 lw marker marker Hi Hd Ho Hs Hl).
  rewrite Z.leb_refl, Z.eqb_refl. simpl andb.
  unfold to_uint64. rewrite Z.mod_small by lia.
  destruct (Z.leb_spec marker (lw - 0)); [|reflexivity].
  rewrite read_in_range by lia.
  rewrite Z.sub_diag. unfold substr. reflexivity.
Qed.

End WithPolicy.
End WithPlatform.

End ReaderFacts.

(** ** The finished region and the reader made of it *)

Module RoundTrip.
Import Coding CodingFacts FilterPolicy Driver Layout LayoutFacts Abstraction.
Import BuilderFacts ReaderFacts.
Import FilterBlockReader(addr, nullptr, state, Platform).

Lemma region_size filters :
  size (region filters) = size (concat filters) + 4 * size filters + 4 + 1.
Proof.
  unfold region. rewrite !size_app, concat_EncodeFixed32_size, size_app.
  replace (size (map to_uint32 (starts filters))) with (size filters)
    by (unfold size; rewrite length_map, starts_length; reflexivity).
  unfold size. simpl length. lia.
Qed.

Lemma region_last filters :
  nth_error (region filters) (Z.to_nat (size (region filters) - 1)) = Some x0b.
Proof.
  unfold region. rewrite app_assoc. apply nth_error_last.
Qed.

(** Word [i] of the directory, the word after the last entry included. *)
Lemma region_word filters i :
  size (concat filters) < 2 ^ 32 ->
  (i <= length filters)%nat ->
  FilterBlockReader.DecodeFixed32 (region filters)
    (addr (size (concat filters) + 4 * Z.of_nat i)) =
  Some (pos filters i).
Proof.
  intros HF Hi. unfold region.
  assert (Hw : map to_uint32 (starts filters) ++ [to_uint32 (size (concat filters))]
               = map to_uint32 (starts filters ++ [size (concat filters)]))
    by (rewrite map_app; reflexivity).
  rewrite Hw, DecodeFixed32_word
    by (rewrite length_map, length_app, starts_length; simpl; lia).
  change 0 with (to_uint32 0) at 1. rewrite map_nth, nth_starts by exact Hi.
  rewrite (@to_uint32_small (to_uint32 (pos filters i)))
    by apply to_uint32_range.
  rewrite to_uint32_small; [reflexivity|].
  pose proof (pos_nonneg filters i). pose proof (pos_le_total filters i). lia.
Qed.

Section WithPlatform.
Variable pf : Platform.

Lemma reader_of_region_filters filters :
  size (concat filters) < 2 ^ 32 ->
  FilterBlockReader.FilterBlockReader pf (region filters) =
  Some (reader_of filters).
Proof.
  intros HF. unfold region, reader_of.
  rewrite reader_of_region
    by (try exact HF; unfold FilterBlockBuilder.kFilterBaseLg; lia).
  replace (size (map to_uint32 (starts filters))) with (size filters)
    by (unfold size; rewrite length_map, starts_length; reflexivity).
  reflexivity.
Qed.

Section WithPolicy.
Context {W : Type} (policy_ : FilterPolicy W).

(** A query whose bucket has a filter asks the policy about that filter. *)
Lemma region_query filters i block_offset key w :
  size (concat filters) < 2 ^ 32 ->
  (i < length filters)%nat ->
  Z.shiftr block_offset FilterBlockBuilder.kFilterBaseLg = Z.of_nat i ->
  FilterBlockReader.KeyMayMatch pf policy_ block_offset key
    (state (region filters) (reader_of filters) w) =
  let (res, w') := KeyMayMatch policy_ key (nth i filters []) w in
  Some (res, state (region filters) (reader_of filters) w').
Proof.
  intros HF Hi Hidx.
  assert (Hsh : FilterBlockReader.shr64 pf block_offset
                  (FilterBlockReader.base_lg_ (reader_of filters)) = Z.of_nat i).
  { unfold FilterBlockReader.shr64. simpl. exact Hidx. }
  pose proof (pos_nonneg filters i) as Hp0.
  pose proof (pos_mono filters (Nat.le_succ_diag_r i)) as Hp1.
  pose proof (pos_le_total filters (S i)) as Hp2.
  pose proof (size_nonneg (concat filters)) as HF0.
  rewrite (@KeyMayMatch_in_range pf W policy_ (region filters)
             (reader_of filters) w block_offset key 0 (size (concat filters))
             (pos filters i) (pos filters (S i))).
  - destruct (Z.leb_spec (pos filters i) (pos filters (S i))); [|lia].
    unfold to_uint64. rewrite Z.sub_0_r, Z.mod_small by lia.
    destruct (Z.leb_spec (pos filters (S i)) (size (concat filters))); [|lia].
    simpl andb. rewrite read_in_range; try lia.
    + unfold region. rewrite substr_app_low by lia.
      simpl Z.add. rewrite substr_piece by exact Hi. reflexivity.
    + rewrite region_size. pose proof (size_nonneg filters). lia.
  - rewrite Hsh. unfold reader_of, size. simpl. lia.
  - reflexivity.
  - reflexivity.
  - rewrite Hsh. replace (Z.of_nat i * 4) with (4 * Z.of_nat i) by lia.
    apply region_word; [exact HF|lia].
  - rewrite Hsh.
    replace (Z.of_nat i * 4 + 4) with (4 * Z.of_nat (S i)) by lia.
    apply region_word; [exact HF|lia].
Qed.

(** [Finish] returns the region for the filters of the closed buckets. *)
Lemma Finish_region b closed :
  Inv policy_ (flushed policy_ b) closed [] ->
  fst (FilterBlockBuilder.Finish policy_ b) = region (map snd closed).
Proof.
  intros H. rewrite Finish_layout, (inv_result H), (inv_offsets H).
  reflexivity.
Qed.


(** After calls that pass every assertion, [Finish] returns the region for
    the filters of some buckets, one per directory entry. *)
Lemma build_region calls b :
  appends policy_ ->
  run policy_ calls FilterBlockBuilder.FilterBlockBuilder = Some b ->
  exists closed, Inv policy_ (flushed policy_ b) closed [].
Proof.
  intros Happ Hrun.
  destruct (@run_Inv W policy_ (fun _ => True) calls
              FilterBlockBuilder.FilterBlockBuilder b [] [] Happ
              (Inv_new policy_) (Forall_nil _) I)
    as [c1 [p1 [H1 [_ Hc1]]]]; [intros; exact I|exact Hrun|].
  destruct (@flushed_Inv W policy_ (fun _ => True) b c1 p1 Happ H1 Hc1 I)
    as [closed [Hf _]].
  exists closed. exact Hf.
Qed.

End WithPolicy.
End WithPlatform.
End RoundTrip.

(** * The properties the specification states *)

Import Coding CodingFacts FilterPolicy Driver Layout LayoutFacts Abstraction.
Import BuilderFacts ReaderFacts RoundTrip.
Import FilterBlockReader(addr, nullptr, valid, degraded, state, Platform).
Import FilterBlockBuilder(kFilterBase, kFilterBaseLg, filter_offsets_, result_,
  start_, keys_, GenerateFilter, StartBlock, AddKey, Finish).

Section Properties.
Context {W : Type} (policy_ : FilterPolicy W) (pf : Platform).

(** C2.  Fail-open on a malformed footer: for every buffer shorter than 5
    bytes, and for every buffer whose directory-start word (the little-endian
    word at length-5) is greater than length-5, the constructor returns a
    reader, in the degraded state (null pointers, bucket count 0), and every
    query on it answers [true] and changes nothing. *)
Theorem fail_open_on_malformed_footer (contents : Slice) :
  size contents < 5 \/
  (exists directory_start,
     FilterBlockReader.DecodeFixed32 contents (addr (size contents - 5)) =
       Some directory_start /\
     directory_start > size contents - 5) ->
  exists r,
    FilterBlockReader.FilterBlockReader pf contents = Some r /\
    degraded r /\
    forall block_offset key w,
      uint64_range block_offset ->
      FilterBlockReader.KeyMayMatch pf policy_ block_offset key
        (state contents r w) =
      Some (true, state contents r w).
Proof.
  intros Hbad.
  destruct (FilterBlockReader_cases pf contents) as [r [Hr [[Hdeg _]|Hok]]].
  - exists r. split; [exact Hr|]. split; [exact Hdeg|].
    intros block_offset key w [Hlo _].
    apply KeyMayMatch_past_end.
    destruct Hdeg as [_ [_ ->]]. apply shr64_nonneg. exact Hlo.
  - exfalso. destruct Hok as [Hn [lw [Hlw [[_ Hle] _]]]].
    destruct Hbad as [Hshort|[ds [Hds Hgt]]]; [lia|].
    rewrite Hlw in Hds. injection Hds as <-. lia.
Qed.

(** C10.  [Finish] on a builder that received no call returns exactly five
    bytes, the word 0 and the shift 11; the reader made of them is in the
    valid state with no bucket, and every query on it answers [true]. *)
Theorem empty_builder_region :
  fst (FilterBlockBuilder.Finish policy_ FilterBlockBuilder.FilterBlockBuilder) =
    [x00; x00; x00; x00; x0b] /\
  exists r,
    FilterBlockReader.FilterBlockReader pf [x00; x00; x00; x00; x0b] = Some r /\
    r = {| FilterBlockReader.data_ := addr 0;
           FilterBlockReader.offset_ := addr 0;
           FilterBlockReader.num_ := 0;
           FilterBlockReader.base_lg_ := 11 |} /\
    valid r /\
    forall block_offset key w,
      uint64_range block_offset ->
      FilterBlockReader.KeyMayMatch pf policy_ block_offset key
        (state [x00; x00; x00; x00; x0b] r w) =
      Some (true, state [x00; x00; x00; x00; x0b] r w).
Proof.
  split; [reflexivity|].
  eexists. split; [|split; [reflexivity|split]].
  - apply (reader_of_region pf [] [] (shift := 11)); [reflexivity|lia].
  - discriminate.
  - intros block_offset key w [Hlo _].
    apply KeyMayMatch_past_end. simpl. apply shr64_nonneg. exact Hlo.
Qed.

(** C7.  When [block_offset / kFilterBase] is at least the number of buckets
    closed so far, the assertion of [StartBlock] holds and the call returns;
    afterwards the number of closed buckets is [block_offset / kFilterBase];
    the builder is the one [GenerateFilter] makes in as many runs as there
    were buckets missing, each run adding exactly one directory entry, after
    the entries that were there. *)
Theorem StartBlock_precondition_and_effect
  (b : FilterBlockBuilder.t) (block_offset : Z) :
  block_offset / kFilterBase >= size (filter_offsets_ b) ->
  exists b',
    StartBlock policy_ block_offset b = Some b' /\
    size (filter_offsets_ b') = block_offset / kFilterBase /\
    b' = Nat.iter
           (Z.to_nat (block_offset / kFilterBase - size (filter_offsets_ b)))
           (GenerateFilter policy_) b /\
    (forall b0,
       filter_offsets_ (GenerateFilter policy_ b0) =
       filter_offsets_ b0 ++ [to_uint32 (size (result_ b0))]) /\
    exists entries,
      filter_offsets_ b' = filter_offsets_ b ++ entries /\
      size entries = block_offset / kFilterBase - size (filter_offsets_ b).
Proof.
  intros Hpre. eexists. split; [apply StartBlock_asserted; exact Hpre|].
  set (filter_index := block_offset / kFilterBase) in *. clearbody filter_index.
  split; [rewrite iter_GenerateFilter_count; lia|].
  split; [reflexivity|].
  split; [apply FilterBlockBuilder.GenerateFilter_offsets|].
  destruct (iter_GenerateFilter_prefix policy_
              (Z.to_nat (filter_index - size (filter_offsets_ b))) b)
    as [entries [He Hl]].
  exists entries. split; [exact He|]. unfold size in *. rewrite Hl. lia.
Qed.

Lemma run_AddKeys (keys : list Slice) (b : FilterBlockBuilder.t) :
  exists b',
    run policy_ (map CallAddKey keys) b = Some b' /\
    filter_offsets_ b' = filter_offsets_ b /\
    length (start_ b') = (length (start_ b) + length keys)%nat.
Proof.
  revert b. induction keys as [|k keys IH]; intros b; simpl.
  - exists b. repeat split. lia.
  - destruct (IH (AddKey k b)) as [b' [Hr [Ho Hs]]].
    exists b'. split; [exact Hr|]. split; [exact Ho|].
    rewrite Hs. simpl. rewrite length_app. simpl. lia.
Qed.

(** C5, as the code has it.  With blocks notified at offsets 0 and 100000,
    whatever keys are added before, between and after, [Finish] leaves
    [100000 / 2048] directory entries when no key was added after the second
    notification, and one more when one was; the region it returns carries
    these entries. *)
Theorem sparse_blocks_bucket_count (keys0 keys1 keys2 : list Slice) :
  exists out b,
    build policy_
      (map CallAddKey keys0 ++ [CallStartBlock 0] ++
       map CallAddKey keys1 ++ [CallStartBlock 100000] ++
       map CallAddKey keys2) = Some (out, b) /\
    size (filter_offsets_ b) =
      100000 / kFilterBase + (match keys2 with [] => 0 | _ :: _ => 1 end) /\
    exists filters,
      out = filters ++
            concat (map EncodeFixed32
                      (filter_offsets_ b ++ [to_uint32 (size filters)])) ++
            [x0b].
Proof.
  unfold build.
  destruct (run_AddKeys keys0 FilterBlockBuilder.FilterBlockBuilder)
    as [b1 [Hr1 [Ho1 _]]].
  rewrite run_app, Hr1. simpl run at 1.
  rewrite StartBlock_asserted by (rewrite Ho1; vm_compute; discriminate).
  rewrite Ho1. simpl Nat.iter.
  destruct (run_AddKeys keys1 b1) as [b2 [Hr2 [Ho2 _]]].
  rewrite run_app, Hr2. simpl run at 1.
  rewrite StartBlock_asserted
    by (rewrite Ho2, Ho1; vm_compute; discriminate).
  set (b3 := Nat.iter _ _ b2).
  assert (Hn : (0 < Z.to_nat (100000 / kFilterBase - size (filter_offsets_ b2)))%nat)
    by (rewrite Ho2, Ho1; vm_compute; lia).
  assert (Ho3 : size (filter_offsets_ b3) = 100000 / kFilterBase).
  { unfold b3. rewrite iter_GenerateFilter_count, Ho2, Ho1.
    vm_compute. reflexivity. }
  assert (Hs3 : start_ b3 = []) by (apply iter_GenerateFilter_start; exact Hn).
  destruct (run_AddKeys keys2 b3) as [b4 [Hr4 [Ho4 Hs4]]].
  rewrite Hr4. rewrite Hs3 in Hs4. simpl in Hs4.
  destruct (Finish_members policy_ b4) as [Hfo Hres].
  exists (fst (Finish policy_ b4)), (snd (Finish policy_ b4)).
  split; [destruct (Finish policy_ b4); reflexivity|].
  split.
  - rewrite Hfo. unfold flushed. rewrite Hs4.
    destruct keys2 as [|k keys2]; simpl.
    + rewrite Ho4, Ho3. lia.
    + rewrite FilterBlockBuilder.GenerateFilter_offsets, size_app, Ho4, Ho3.
      reflexivity.
  - exists (result_ (flushed policy_ b4)).
    rewrite Hfo. apply Finish_layout.
Qed.

(** C8, as the code has it.  After calls with non-decreasing offsets, [Finish]
    on [n] closed
    buckets and [F] bytes of filter data returns [F + 4n + 4 + 1] bytes, the
    last of which is the shift 11; the constructor makes of these bytes a
    reader in the valid state with shift 11, and, when [F] is below [2^32] as
    the four-byte words of the format need, with the directory at [F] and
    exactly [n] buckets. *)
Theorem footer_round_trip (calls : list Call) :
  legal calls ->
  exists bld,
    run policy_ calls FilterBlockBuilder.FilterBlockBuilder = Some bld /\
    let out := fst (Finish policy_ bld) in
    let n := size (filter_offsets_ (snd (Finish policy_ bld))) in
    let F := size (result_ (flushed policy_ bld)) in
    size out = F + 4 * n + 4 + 1 /\
    nth_error out (Z.to_nat (size out - 1)) = Some x0b /\
    exists r,
      FilterBlockReader.FilterBlockReader pf out = Some r /\
      valid r /\
      FilterBlockReader.base_lg_ r = 11 /\
      (F < 2 ^ 32 ->
       r = {| FilterBlockReader.data_ := addr 0;
              FilterBlockReader.offset_ := addr F;
              FilterBlockReader.num_ := n;
              FilterBlockReader.base_lg_ := 11 |}).
Proof.
  intros Hlegal.
  destruct (legal_run policy_ calls (lo := 0)
              FilterBlockBuilder.FilterBlockBuilder Hlegal)
    as [bld Hrun]; [lia|vm_compute; discriminate|].
  exists bld. split; [exact Hrun|]. cbv zeta.
  destruct (Finish_members policy_ bld) as [Hfo _].
  rewrite Hfo, Finish_layout.
  split; [|split].
  - rewrite !size_app, concat_EncodeFixed32_size, size_app.
    unfold size. simpl length. lia.
  - rewrite app_assoc. apply nth_error_last.
  - eexists. split; [apply reader_of_layout; unfold kFilterBaseLg; lia|].
    split; [discriminate|]. split; [reflexivity|].
    intros HF. pose proof (size_nonneg (result_ (flushed policy_ bld))).
    rewrite to_uint32_small by lia.
    replace (size (result_ (flushed policy_ bld)) +
             4 * size (filter_offsets_ (flushed policy_ bld)) -
             size (result_ (flushed policy_ bld)))
      with (size (filter_offsets_ (flushed policy_ bld)) * 4) by lia.
    rewrite Z.div_mul by lia. reflexivity.
Qed.

(** C6, as the code has it.  After calls with non-decreasing offsets and a
    policy that appends, when the filter data [F] is below [2^32]: the [n]
    directory entries read back from the region are non-decreasing, each
    within [0, F]; the directory takes exactly [4n] bytes, from [F] to the
    footer; and the word after the last entry, the directory-start field, is
    [F], the position where the directory begins. *)
Theorem directory_invariant (calls : list Call) :
  appends policy_ ->
  legal calls ->
  exists bld,
    run policy_ calls FilterBlockBuilder.FilterBlockBuilder = Some bld /\
    let out := fst (Finish policy_ bld) in
    let n := length (filter_offsets_ (snd (Finish policy_ bld))) in
    let F := size (result_ (flushed policy_ bld)) in
    F < 2 ^ 32 ->
    size out - 5 - F = 4 * Z.of_nat n /\
    FilterBlockReader.DecodeFixed32 out (addr (size out - 5)) = Some F /\
    F + 4 * Z.of_nat n = size out - 5 /\
    exists entries,
      length entries = n /\
      (forall i, (i < n)%nat ->
         FilterBlockReader.DecodeFixed32 out (addr (F + 4 * Z.of_nat i)) =
         Some (nth i entries 0)) /\
      (forall i j, (i <= j < n)%nat -> nth i entries 0 <= nth j entries 0) /\
      (forall i, (i < n)%nat -> 0 <= nth i entries 0 <= F).
Proof.
  intros Happ Hlegal.
  destruct (legal_run policy_ calls (lo := 0)
              FilterBlockBuilder.FilterBlockBuilder Hlegal)
    as [bld Hrun]; [lia|vm_compute; discriminate|].
  exists bld. split; [exact Hrun|]. cbv zeta.
  destruct (build_region _ Happ Hrun) as [closed Hinv].
  destruct (Finish_members policy_ bld) as [Hfo _].
  rewrite Hfo, (Inv_count Hinv), (Finish_region _ Hinv), (inv_result Hinv).
  set (L := map snd closed).
  assert (HL : length L = length closed) by apply length_map.
  rewrite <- HL. intros HF.
  assert (Hsz : size (region L) - 5 = size (concat L) + 4 * Z.of_nat (length L))
    by (rewrite region_size; unfold size; lia).
  split; [lia|]. split.
  { rewrite Hsz, region_word by (try exact HF; lia).
    rewrite pos_all. reflexivity. }
  split; [lia|].
  assert (Hnth : forall i, (i < length L)%nat -> nth i (starts L) 0 = pos L i).
  { intros i Hi. rewrite <- (nth_starts L) by lia.
    rewrite app_nth1 by (rewrite starts_length; exact Hi). reflexivity. }
  exists (starts L). split; [apply starts_length|]. split; [|split].
  - intros i Hi. rewrite Hnth by exact Hi. apply region_word; [exact HF|lia].
  - intros i j Hij. rewrite !Hnth by lia. apply pos_mono. lia.
  - intros i Hi. rewrite Hnth by exact Hi.
    split; [apply pos_nonneg|apply pos_le_total].
Qed.


(** C4, as the code has it.  On a reader the constructor made, in the valid
    state, for a query whose bucket index is below the bucket count: when the
    two words read for the bucket do not satisfy
    [start <= limit <= offset_ - data_], the answer is [true] if they differ
    and [false] if they are equal. *)
Theorem bad_bounds_answer (contents : Slice) (r : FilterBlockReader.t)
  (d o block_offset : Z) (key : Slice) (w : W) (start limit : Z) :
  FilterBlockReader.FilterBlockReader pf contents = Some r ->
  FilterBlockReader.data_ r = addr d ->
  FilterBlockReader.offset_ r = addr o ->
  uint64_range block_offset ->
  let index := FilterBlockReader.shr64 pf block_offset
                 (FilterBlockReader.base_lg_ r) in
  index < FilterBlockReader.num_ r ->
  FilterBlockReader.DecodeFixed32 contents (addr (o + index * 4)) = Some start ->
  FilterBlockReader.DecodeFixed32 contents (addr (o + (index * 4 + 4))) =
    Some limit ->
  ~ (start <= limit <= o - d) ->
  FilterBlockReader.KeyMayMatch pf policy_ block_offset key
    (state contents r w) =
  Some (negb (start =? limit), state contents r w).
Proof.
  intros Hr Hd Ho _ index Hi Hs Hl Hbad.
  destruct (FilterBlockReader_cases pf contents)
    as [r0 [Hr0 [[[Hnull _] _]|[_ [lw [_ [Hlw [Hlw32 [Hd0 [Ho0 _]]]]]]]]]];
    rewrite Hr in Hr0; injection Hr0 as <-.
  { rewrite Hd in Hnull. discriminate. }
  rewrite Hd in Hd0. rewrite Ho in Ho0.
  injection Hd0 as ->. injection Ho0 as ->.
  rewrite (@KeyMayMatch_in_range pf W policy_ contents r w block_offset key
             0 lw start limit Hi Hd Ho Hs Hl).
  unfold to_uint64. rewrite Z.mod_small by lia.
  destruct (Z.leb_spec start limit); simpl.
  - destruct (Z.leb_spec limit (lw - 0)); [lia|]. simpl.
    destruct (start =? limit); reflexivity.
  - destruct (start =? limit); reflexivity.
Qed.

(** A query on a reader the constructor made either answers by itself,
    changing nothing, or returns what the policy answers on some filter. *)
Lemma KeyMayMatch_constructed (contents : Slice) (r : FilterBlockReader.t)
  (block_offset : Z) (key : Slice) (w : W) :
  FilterBlockReader.FilterBlockReader pf contents = Some r ->
  0 <= block_offset ->
  (exists answer,
     FilterBlockReader.KeyMayMatch pf policy_ block_offset key
       (state contents r w) =
     Some (answer, state contents r w)) \/
  (exists filter,
     FilterBlockReader.KeyMayMatch pf policy_ block_offset key
       (state contents r w) =
     let (res, w') := KeyMayMatch policy_ key filter w in
     Some (res, state contents r w')).
Proof.
  intros Hr Hoff.
  destruct (FilterBlockReader_cases pf contents)
    as [r0 [Hr0 [[[_ [_ Hnum]] _]|[Hn [lw [_ [Hlw [Hlw32 [Hd [Ho Hnum]]]]]]]]]];
    rewrite Hr in Hr0; injection Hr0 as <-.
  { left. exists true. apply KeyMayMatch_past_end.
    rewrite Hnum. apply shr64_nonneg. exact Hoff. }
  set (index := FilterBlockReader.shr64 pf block_offset
                  (FilterBlockReader.base_lg_ r)).
  assert (Hidx0 : 0 <= index) by (apply shr64_nonneg; exact Hoff).
  destruct (Z_lt_le_dec index (FilterBlockReader.num_ r)) as [Hlt|Hge].
  2:{ left. exists true. apply KeyMayMatch_past_end. exact Hge. }
  assert (Hroom : 4 * FilterBlockReader.num_ r <= size contents - 5 - lw)
    by (rewrite Hnum; apply Z.mul_div_le; lia).
  destruct (DecodeFixed32_in_range contents (a := lw + index * 4))
    as [start [Hs Hs32]]; [lia|lia|].
  destruct (DecodeFixed32_in_range contents (a := lw + (index * 4 + 4)))
    as [limit [Hl Hl32]]; [lia|lia|].
  rewrite (@KeyMayMatch_in_range pf W policy_ contents r w block_offset key
             0 lw start limit Hlt Hd Ho Hs Hl).
  unfold to_uint64. rewrite Z.mod_small by lia.
  destruct (Z.leb_spec start limit); simpl.
  - destruct (Z.leb_spec limit (lw - 0)); simpl.
    + right. rewrite read_in_range by lia. eexists. reflexivity.
    + left. destruct (start =? limit); eexists; reflexivity.
  - left. destruct (start =? limit); eexists; reflexivity.
Qed.

(** C9.  With a policy whose match routine is a function of the key and the
    filter, a query on a reader the constructor made, valid or degraded,
    returns an answer and leaves the buffer, the reader's members and the
    policy's environment as they were; asked twice in a row it gives the
    same answer twice. *)
Theorem query_deterministic_and_stateless (contents : Slice)
  (r : FilterBlockReader.t) (block_offset : Z) (key : Slice) (w : W) :
  pure_match policy_ ->
  FilterBlockReader.FilterBlockReader pf contents = Some r ->
  uint64_range block_offset ->
  exists answer,
    FilterBlockReader.KeyMayMatch pf policy_ block_offset key
      (state contents r w) =
    Some (answer, state contents r w) /\
    FilterBlockReader.bind
      (FilterBlockReader.KeyMayMatch pf policy_ block_offset key)
      (fun first =>
         FilterBlockReader.bind
           (FilterBlockReader.KeyMayMatch pf policy_ block_offset key)
           (fun second => FilterBlockReader.ret (first, second)))
      (state contents r w) =
    Some ((answer, answer), state contents r w).
Proof.
  intros [f Hpure] Hr [Hoff _].
  assert (Hone : exists answer,
             FilterBlockReader.KeyMayMatch pf policy_ block_offset key
               (state contents r w) =
             Some (answer, state contents r w)).
  { destruct (@KeyMayMatch_constructed contents r block_offset key w Hr Hoff)
      as [Hself|[filter Hask]]; [exact Hself|].
    rewrite Hpure in Hask. eexists. exact Hask. }
  destruct Hone as [answer Hanswer]. exists answer.
  split; [exact Hanswer|].
  unfold FilterBlockReader.bind. rewrite Hanswer, Hanswer. reflexivity.
Qed.

End Properties.

(** ** The policies used to run the code *)

Lemma first_byte_policy_appends : appends first_byte_policy.
Proof. intros keys n dst. eexists. reflexivity. Qed.

Lemma first_byte_policy_no_false_negatives :
  no_false_negatives first_byte_policy.
Proof.
  intros keys n dst filter key w Hcreate Hin. simpl in *.
  apply app_inv_head in Hcreate. subst filter.
  apply existsb_exists. exists (first_byte key).
  split; [apply in_map; exact Hin|apply byte_dec_lb; reflexivity].
Qed.

Lemma first_byte_policy_pure : pure_match first_byte_policy.
Proof.
  exists (fun key filter => existsb (Byte.eqb (first_byte key)) filter).
  intros key filter w. reflexivity.
Qed.

Lemma sample_calls_legal : legal sample_calls.
Proof. unfold legal. simpl. lia. Qed.



(** ** One bucket with [2^32] bytes of filter data

    The policy writes [N] bytes [0xff] for the one key; [N] is kept a
    variable, with [Z.of_nat N = 2^32], so that nothing is computed on the
    data. *)

Section FourGiB.
Variable pf : Platform.
Variable N : nat.
Hypothesis HN : Z.of_nat N = 2 ^ 32.

Lemma padding_policy_flushed :
  flushed (padding_policy N) (AddKey [x61] FilterBlockBuilder.FilterBlockBuilder) =
  {| FilterBlockBuilder.keys_ := [];
     FilterBlockBuilder.start_ := [];
     FilterBlockBuilder.result_ := repeat xff N;
     FilterBlockBuilder.tmp_keys_ := [];
     FilterBlockBuilder.filter_offsets_ := [0] |}.
Proof. reflexivity. Qed.

Lemma padding_policy_region :
  fst (Finish (padding_policy N)
         (AddKey [x61] FilterBlockBuilder.FilterBlockBuilder)) =
  repeat xff N ++
  concat (map EncodeFixed32 ([0] ++ [to_uint32 (size (repeat xff N))])) ++
  [Z_to_byte kFilterBaseLg].
Proof. rewrite Finish_layout, padding_policy_flushed. reflexivity. Qed.

Lemma padding_size : size (repeat xff N) = 2 ^ 32.
Proof. unfold size. rewrite repeat_length. exact HN. Qed.

(** The first two words of the region are [0xffffffff]. *)
Lemma padding_policy_words :
  let out := fst (Finish (padding_policy N)
                    (AddKey [x61] FilterBlockBuilder.FilterBlockBuilder)) in
  FilterBlockReader.DecodeFixed32 out (addr 0) = Some 4294967295 /\
  FilterBlockReader.DecodeFixed32 out (addr 4) = Some 4294967295.
Proof.
  cbv zeta. rewrite padding_policy_region.
  replace N with (8 + (N - 8))%nat by lia.
  rewrite repeat_app, <- app_assoc.
  unfold FilterBlockReader.DecodeFixed32.
  rewrite !read_in_range
    by (try (rewrite size_app; pose proof (size_nonneg
               (repeat xff (8 + (N - 8) - 8) ++
                concat (map EncodeFixed32
                          ([0] ++ [to_uint32 (size (repeat xff (8 + (N - 8))))])) ++
                [Z_to_byte kFilterBaseLg])));
        unfold size; simpl length; lia).
  rewrite !substr_app_low by (unfold size; simpl length; lia).
  split; reflexivity.
Qed.

(** The region [Finish] returns, the reader the constructor makes of it, and
    the query for the key in bucket 0. *)
Lemma four_GiB_of_filter_data :
  exists out bld r,
    build (padding_policy N) [CallAddKey [x61]] = Some (out, bld) /\
    filter_offsets_ bld = [0] /\
    size (result_ (flushed (padding_policy N)
                     (AddKey [x61] FilterBlockBuilder.FilterBlockBuilder))) =
      2 ^ 32 /\
    size out = 2 ^ 32 + 4 * 1 + 4 + 1 /\
    FilterBlockReader.DecodeFixed32 out (addr (size out - 5)) = Some 0 /\
    FilterBlockReader.FilterBlockReader pf out = Some r /\
    r = {| FilterBlockReader.data_ := addr 0;
           FilterBlockReader.offset_ := addr 0;
           FilterBlockReader.num_ := 2 ^ 30 + 1;
           FilterBlockReader.base_lg_ := 11 |} /\
    FilterBlockReader.DecodeFixed32 out (addr 0) = Some 4294967295 /\
    FilterBlockReader.DecodeFixed32 out (addr 4) = Some 4294967295 /\
    FilterBlockReader.KeyMayMatch pf (padding_policy N) 0 [x61]
      (state out r tt) =
    Some (false, state out r tt).
Proof.
  set (b := AddKey [x61] FilterBlockBuilder.FilterBlockBuilder).
  exists (fst (Finish (padding_policy N) b)),
         (snd (Finish (padding_policy N) b)).
  eexists.
  split; [unfold build; simpl run; apply f_equal, surjective_pairing|].
  split; [reflexivity|].
  split; [unfold b; rewrite padding_policy_flushed; exact padding_size|].
  destruct padding_policy_words as [Hstart Hlimit]. fold b in Hstart, Hlimit.
  assert (Hsize : size (fst (Finish (padding_policy N) b)) =
                  2 ^ 32 + 4 * 1 + 4 + 1).
  { unfold b. rewrite padding_policy_region, !size_app, padding_size.
    reflexivity. }
  split; [exact Hsize|].
  assert (Hreader :
            FilterBlockReader.FilterBlockReader pf
              (fst (Finish (padding_policy N) b)) =
            Some {| FilterBlockReader.data_ := addr 0;
                    FilterBlockReader.offset_ := addr 0;
                    FilterBlockReader.num_ := 2 ^ 30 + 1;
                    FilterBlockReader.base_lg_ := 11 |}).
  { unfold b. rewrite padding_policy_region.
    rewrite (reader_of_layout pf (repeat xff N) [0] (shift := kFilterBaseLg))
      by (unfold kFilterBaseLg; lia).
    rewrite padding_size. reflexivity. }
  split.
  { rewrite Hsize. unfold b. rewrite padding_policy_region, padding_size.
    replace (2 ^ 32 + 4 * 1 + 4 + 1 - 5) with (size (repeat xff N) + 4 * size [0])
      by (rewrite padding_size; reflexivity).
    apply (DecodeFixed32_word_mid (repeat xff N) [Z_to_byte kFilterBaseLg]
             [0] [] (to_uint32 (2 ^ 32))). }
  split; [exact Hreader|]. split; [reflexivity|].
  split; [exact Hstart|]. split; [exact Hlimit|].
  rewrite (@KeyMayMatch_in_range pf unit (padding_policy N)
             (fst (Finish (padding_policy N) b)) _ tt 0 [x61]
             0 0 4294967295 4294967295);
    try reflexivity; try assumption.
Qed.

End FourGiB.

(** ** The properties on concrete inputs *)

(** C2 at a five-byte buffer whose directory-start word is [0xffffffff]. *)
Lemma fail_open_on_malformed_footer_witness :
  exists r,
    FilterBlockReader.FilterBlockReader platform [xff; xff; xff; xff; x0b] =
      Some r /\
    degraded r /\
    forall block_offset key w,
      uint64_range block_offset ->
      FilterBlockReader.KeyMayMatch platform first_byte_policy block_offset key
        (state [xff; xff; xff; xff; x0b] r w) =
      Some (true, state [xff; xff; xff; xff; x0b] r w).
Proof.
  apply (@fail_open_on_malformed_footer unit first_byte_policy platform
           [xff; xff; xff; xff; x0b]).
  right. exists 4294967295. split; [reflexivity|reflexivity].
Defined.

(** C7 on a fresh builder at offset 5000: two buckets are closed. *)
Lemma StartBlock_precondition_and_effect_witness :
  5000 / kFilterBase >=
    size (filter_offsets_ FilterBlockBuilder.FilterBlockBuilder) /\
  exists b',
    StartBlock first_byte_policy 5000 FilterBlockBuilder.FilterBlockBuilder =
      Some b' /\
    size (filter_offsets_ b') = 2.
Proof.
  assert (Hpre : 5000 / kFilterBase >=
                 size (filter_offsets_ FilterBlockBuilder.FilterBlockBuilder))
    by (vm_compute; discriminate).
  split; [exact Hpre|].
  destruct (@StartBlock_precondition_and_effect unit first_byte_policy
              FilterBlockBuilder.FilterBlockBuilder 5000 Hpre)
    as [b' [Hcall [Hcount _]]].
  exists b'. split; [exact Hcall|exact Hcount].
Defined.

(** C8 as amended, on the sample calls: three buckets, two bytes of filter
    data. *)
Lemma footer_round_trip_witness :
  legal sample_calls /\
  exists bld,
    run first_byte_policy sample_calls FilterBlockBuilder.FilterBlockBuilder =
      Some bld /\
    size (fst (Finish first_byte_policy bld)) = 2 + 4 * 3 + 4 + 1 /\
    FilterBlockReader.FilterBlockReader platform
      (fst (Finish first_byte_policy bld)) =
    Some {| FilterBlockReader.data_ := addr 0;
            FilterBlockReader.offset_ := addr 2;
            FilterBlockReader.num_ := 3;
            FilterBlockReader.base_lg_ := 11 |}.
Proof.
  split; [exact sample_calls_legal|].
  destruct (@footer_round_trip unit first_byte_policy platform sample_calls
              sample_calls_legal)
    as [bld [Hrun [Hsize [_ [r [Hreader [_ [_ Hr]]]]]]]].
  exists bld. split; [exact Hrun|].
  vm_compute in Hrun. injection Hrun as <-.
  split; [exact Hsize|]. rewrite Hreader. f_equal. apply Hr. reflexivity.
Defined.

(** C8 fails as stated: with a policy that writes [2^32] bytes for the one
    key added, the builder closes one bucket and the region has
    [2^32 + 4 * 1 + 4 + 1] bytes, but its directory-start word is
    [2^32] as a [uint32_t], which is 0: the reader looks for the directory at
    byte 0, not at byte [2^32], and counts [2^30 + 1] buckets, not 1. *)
Lemma four_GiB_bucket_count_counterexample :
  legal [CallAddKey [x61]] /\
  exists out bld r,
    build (padding_policy four_GiB) [CallAddKey [x61]] = Some (out, bld) /\
    filter_offsets_ bld = [0] /\
    size (result_ (flushed (padding_policy four_GiB)
                     (AddKey [x61] FilterBlockBuilder.FilterBlockBuilder))) =
      2 ^ 32 /\
    size out = 2 ^ 32 + 4 * 1 + 4 + 1 /\
    FilterBlockReader.DecodeFixed32 out (addr (size out - 5)) = Some 0 /\
    FilterBlockReader.FilterBlockReader platform out = Some r /\
    FilterBlockReader.offset_ r = addr 0 /\
    FilterBlockReader.num_ r = 2 ^ 30 + 1.
Proof.
  split; [exact I|].
  destruct (@four_GiB_of_filter_data platform four_GiB)
    as [out [bld [r [Hbuild [Hentries [HF [Hsize [Hword [Hreader [Hr _]]]]]]]]]].
  { apply Z2Nat.id. lia. }
  exists out, bld, r.
  split; [exact Hbuild|]. split; [exact Hentries|]. split; [exact HF|].
  split; [exact Hsize|]. split; [exact Hword|]. split; [exact Hreader|].
  rewrite Hr. split; reflexivity.
Qed.

(** C5 fails as stated: blocks notified at offsets 0 and 100000 and no key
    added leave 48 directory entries, which is [100000 / 2048] and not
    [100000 / 2048 + 1]; the reader of the region counts 48 buckets. *)
Lemma sparse_blocks_without_keys_counterexample :
  exists out b,
    build first_byte_policy [CallStartBlock 0; CallStartBlock 100000] =
      Some (out, b) /\
    size (filter_offsets_ b) = 48 /\
    option_map FilterBlockReader.num_
      (FilterBlockReader.FilterBlockReader platform out) = Some 48 /\
    48 <> 100000 / kFilterBase + 1.
Proof.
  eexists. eexists. split; [vm_compute; reflexivity|].
  split; [reflexivity|]. split; [vm_compute; reflexivity|].
  vm_compute. discriminate.
Qed.

(** C6 fails as stated: after one key and [Finish] the directory has the one
    entry 0, and the directory begins at byte 1. *)
Lemma last_entry_counterexample :
  exists out b,
    build first_byte_policy [CallAddKey [x61]] = Some (out, b) /\
    filter_offsets_ b = [0] /\
    FilterBlockReader.DecodeFixed32 out (addr (size out - 5)) = Some 1 /\
    FilterBlockReader.DecodeFixed32 out (addr (1 + 4 * 0)) = Some 0 /\
    last (filter_offsets_ b) 0 <> 1.
Proof.
  eexists. eexists. split; [vm_compute; reflexivity|].
  split; [reflexivity|]. split; [vm_compute; reflexivity|].
  split; [vm_compute; reflexivity|]. vm_compute. discriminate.
Qed.

(** C6 as amended, on the sample calls: the directory is 0, 1, 1 and begins
    at byte 2. *)
Lemma directory_invariant_witness :
  appends first_byte_policy /\
  legal sample_calls /\
  exists bld,
    run first_byte_policy sample_calls FilterBlockBuilder.FilterBlockBuilder =
      Some bld /\
    FilterBlockReader.DecodeFixed32 (fst (Finish first_byte_policy bld))
      (addr (size (fst (Finish first_byte_policy bld)) - 5)) = Some 2 /\
    exists entries,
      length entries = 3%nat /\
      (forall i j, (i <= j < 3)%nat -> nth i entries 0 <= nth j entries 0) /\
      (forall i, (i < 3)%nat -> 0 <= nth i entries 0 <= 2).
Proof.
  split; [exact first_byte_policy_appends|].
  split; [exact sample_calls_legal|].
  destruct (@directory_invariant unit first_byte_policy sample_calls
              first_byte_policy_appends sample_calls_legal)
    as [bld [Hrun Hdir]].
  exists bld. split; [exact Hrun|].
  vm_compute in Hrun. injection Hrun as <-.
  destruct (Hdir ltac:(reflexivity))
    as [_ [Hstart [_ [entries [Hlen [_ [Hmono Hbound]]]]]]].
  split; [exact Hstart|].
  exists entries. split; [exact Hlen|].
  split; [exact Hmono|exact Hbound].
Defined.



(** C3 on the code: two empty buckets and a policy that answers "maybe" to
    everything.  For bucket 0 both words are 0, the empty-filter marker, and
    the query answers [true]: the range test comes first and hands the empty
    filter to the policy. *)
Lemma empty_marker_asks_policy :
  exists out b r,
    build always_policy [CallStartBlock 4096] = Some (out, b) /\
    FilterBlockReader.FilterBlockReader platform out = Some r /\
    valid r /\
    FilterBlockReader.shr64 platform 0 (FilterBlockReader.base_lg_ r) <
      FilterBlockReader.num_ r /\
    FilterBlockReader.DecodeFixed32 out
      (FilterBlockReader.ptr_add (FilterBlockReader.offset_ r) 0) = Some 0 /\
    FilterBlockReader.DecodeFixed32 out
      (FilterBlockReader.ptr_add (FilterBlockReader.offset_ r) 4) = Some 0 /\
    FilterBlockReader.KeyMayMatch platform always_policy 0 [x61]
      (state out r tt) = Some (true, state out r tt).
Proof.
  eexists. eexists. eexists. split; [vm_compute; reflexivity|].
  split; [vm_compute; reflexivity|]. split; [discriminate|].
  split; [reflexivity|]. split; [vm_compute; reflexivity|].
  split; [vm_compute; reflexivity|]. vm_compute. reflexivity.
Qed.

(** C4 fails as stated: with the words 5 and 5 for bucket 0 and the directory
    at byte 0, [5 <= 5 <= 0] does not hold and the query answers [false]. *)
Lemma equal_bad_bounds_counterexample :
  exists r,
    FilterBlockReader.FilterBlockReader platform equal_bounds_region = Some r /\
    valid r /\
    FilterBlockReader.offset_ r = addr 0 /\
    FilterBlockReader.data_ r = addr 0 /\
    FilterBlockReader.shr64 platform 0 (FilterBlockReader.base_lg_ r) <
      FilterBlockReader.num_ r /\
    FilterBlockReader.DecodeFixed32 equal_bounds_region (addr 0) = Some 5 /\
    FilterBlockReader.DecodeFixed32 equal_bounds_region (addr 4) = Some 5 /\
    ~ (5 <= 5 <= 0 - 0) /\
    FilterBlockReader.KeyMayMatch platform first_byte_policy 0 [x61]
      (state equal_bounds_region r tt) =
    Some (false, state equal_bounds_region r tt).
Proof.
  eexists. split; [vm_compute; reflexivity|]. split; [discriminate|].
  split; [reflexivity|]. split; [reflexivity|]. split; [reflexivity|].
  split; [vm_compute; reflexivity|]. split; [vm_compute; reflexivity|].
  split; [lia|]. vm_compute. reflexivity.
Qed.

(** C4 as amended, with the words 7 and 3 for bucket 0: the answer is
    [true]. *)
Lemma bad_bounds_answer_witness :
  FilterBlockReader.KeyMayMatch platform first_byte_policy 0 [x61]
    (state crossed_bounds_region
       {| FilterBlockReader.data_ := addr 0;
          FilterBlockReader.offset_ := addr 0;
          FilterBlockReader.num_ := 2;
          FilterBlockReader.base_lg_ := 11 |} tt) =
  Some (true,
        state crossed_bounds_region
          {| FilterBlockReader.data_ := addr 0;
             FilterBlockReader.offset_ := addr 0;
             FilterBlockReader.num_ := 2;
             FilterBlockReader.base_lg_ := 11 |} tt).
Proof.
  apply (@bad_bounds_answer unit first_byte_policy platform
           crossed_bounds_region _ 0 0 0 [x61] tt 7 3).
  - vm_compute. reflexivity.
  - reflexivity.
  - reflexivity.
  - split; [discriminate|reflexivity].
  - reflexivity.
  - vm_compute. reflexivity.
  - vm_compute. reflexivity.
  - lia.
Defined.

(** C9 on a region with one filter: the query for key "a" in bucket 0
    answers [true], twice, and nothing changes. *)
Lemma query_deterministic_and_stateless_witness :
  pure_match first_byte_policy /\
  exists r answer,
    FilterBlockReader.FilterBlockReader platform one_filter_region = Some r /\
    FilterBlockReader.KeyMayMatch platform first_byte_policy 0 [x61]
      (state one_filter_region r tt) =
    Some (answer, state one_filter_region r tt) /\
    FilterBlockReader.bind
      (FilterBlockReader.KeyMayMatch platform first_byte_policy 0 [x61])
      (fun first =>
         FilterBlockReader.bind
           (FilterBlockReader.KeyMayMatch platform first_byte_policy 0 [x61])
           (fun second => FilterBlockReader.ret (first, second)))
      (state one_filter_region r tt) =
    Some ((answer, answer), state one_filter_region r tt).
Proof.
  split; [exact first_byte_policy_pure|].
  eexists.
  destruct (@query_deterministic_and_stateless unit first_byte_policy platform
              one_filter_region _ 0 [x61] tt first_byte_policy_pure eq_refl)
    as [answer [Hone Htwo]].
  - split; [discriminate|reflexivity].
  - exists answer. split; [vm_compute; reflexivity|].
    split; [exact Hone|exact Htwo].
Defined.

(** Without the hypothesis of C9 the answers can differ: a policy that
    flips its answer on every call. *)
Lemma flip_policy_answers_differ :
  exists r,
    FilterBlockReader.FilterBlockReader platform one_filter_region = Some r /\
    FilterBlockReader.bind
      (FilterBlockReader.KeyMayMatch platform flip_policy 0 [x61])
      (fun first =>
         FilterBlockReader.bind
           (FilterBlockReader.KeyMayMatch platform flip_policy 0 [x61])
           (fun second => FilterBlockReader.ret (first, second)))
      (state one_filter_region r true) =
    Some ((true, false), state one_filter_region r true).
Proof.
  eexists. split; [vm_compute; reflexivity|]. vm_compute. reflexivity.
Qed.

(** * The builder and the reader beyond the stated properties *)

(** ** The builder follows the key groups *)

Module BucketsFacts.
Import Buckets.

Section WithPolicy.
Context {W : Type} (policy_ : FilterPolicy W).

Lemma filters_from_length dst groups :
  length (filters_from policy_ dst groups) = length groups.
Proof.
  revert dst. induction groups as [|keys groups IH]; intros dst; simpl.
  - reflexivity.
  - rewrite IH. reflexivity.
Qed.

Lemma filters_from_snoc dst groups keys :
  filters_from policy_ dst (groups ++ [keys]) =
  filters_from policy_ dst groups ++
  [filter_for policy_ keys (dst ++ concat (filters_from policy_ dst groups))].
Proof.
  revert dst. induction groups as [|g groups IH]; intros dst; simpl.
  - rewrite app_nil_r. reflexivity.
  - rewrite IH, <- app_assoc. reflexivity.
Qed.

(** For a policy that appends, [CreateFilter] returns its target followed by
    the filter. *)
Lemma CreateFilter_filter_for keys dst :
  appends policy_ ->
  keys <> [] ->
  CreateFilter policy_ keys (to_int (size keys)) dst =
  dst ++ filter_for policy_ keys dst.
Proof.
  intros Happ Hne. destruct keys as [|k keys]; [contradiction|].
  destruct (Happ (k :: keys) (to_int (size (k :: keys))) dst) as [f Hf].
  unfold filter_for. rewrite Hf, skipn_app, skipn_all, Nat.sub_diag.
  reflexivity.
Qed.

Lemma Rep_new : Rep policy_ FilterBlockBuilder.FilterBlockBuilder ([], []).
Proof. split; reflexivity. Qed.

Lemma Rep_count b g :
  Rep policy_ b g -> size (filter_offsets_ b) = size (fst g).
Proof.
  intros H. rewrite (rep_offsets H). unfold size.
  rewrite length_map, starts_length, filters_from_length. reflexivity.
Qed.

Lemma Rep_AddKey b g key :
  Rep policy_ b g -> Rep policy_ (AddKey key b) (fst g, snd g ++ [key]).
Proof.
  intros H. split; simpl.
  - apply (rep_result H).
  - apply (rep_offsets H).
  - rewrite (rep_keys H), concat_app. simpl. rewrite app_nil_r. reflexivity.
  - rewrite (rep_start H), (rep_keys H). symmetry. apply starts_snoc.
Qed.

Lemma Rep_GenerateFilter b g :
  appends policy_ ->
  Rep policy_ b g -> Rep policy_ (GenerateFilter policy_ b) (close g).
Proof.
  intros Happ H. destruct g as [closed pending]. unfold close. simpl fst.
  simpl snd. unfold GenerateFilter.
  rewrite (rep_start H), starts_length. simpl snd.
  pose proof (rep_result H) as Hres. pose proof (rep_offsets H) as Hoff.
  simpl fst in Hres, Hoff.
  destruct pending as [|k pending].
  - simpl Nat.eqb. cbv iota. split; simpl fst; simpl snd.
    + simpl result_. rewrite filters_from_snoc, concat_app. simpl.
      rewrite app_nil_r. exact Hres.
    + simpl filter_offsets_. rewrite filters_from_snoc, starts_snoc, map_app.
      rewrite Hoff, Hres. reflexivity.
    + simpl keys_. apply (rep_keys H).
    + reflexivity.
  - set (pend := k :: pending) in *.
    assert (Hne : Nat.eqb (length pend) 0 = false) by reflexivity.
    rewrite Hne. cbv zeta. rewrite (rep_keys H). simpl snd.
    rewrite (split_flattened pend).
    change (Z.of_nat (length pend)) with (size pend).
    rewrite CreateFilter_filter_for by (try exact Happ; discriminate).
    split; simpl fst; simpl snd.
    + simpl result_. rewrite filters_from_snoc, concat_app. simpl.
      rewrite app_nil_r, <- Hres. reflexivity.
    + simpl filter_offsets_. rewrite filters_from_snoc, starts_snoc, map_app.
      rewrite Hoff, Hres. reflexivity.
    + reflexivity.
    + reflexivity.
Qed.

Lemma Rep_iter n b g :
  appends policy_ ->
  Rep policy_ b g ->
  Rep policy_ (Nat.iter n (GenerateFilter policy_) b) (Nat.iter n close g).
Proof.
  intros Happ H. induction n as [|n IH].
  - exact H.
  - rewrite !Nat.iter_succ. apply Rep_GenerateFilter; assumption.
Qed.

Lemma Rep_call c b g :
  appends policy_ ->
  Rep policy_ b g -> Rep_opt policy_ (call policy_ c b) (step c g).
Proof.
  intros Happ H. destruct c as [block_offset|key]; simpl.
  - unfold StartBlock. cbv zeta. rewrite StartBlock_loop_iter.
    rewrite (Rep_count H).
    destruct (block_offset / kFilterBase >=? size (fst g)); simpl.
    + apply Rep_iter; assumption.
    + exact I.
  - apply Rep_AddKey. exact H.
Qed.

Lemma Rep_run calls b g :
  appends policy_ ->
  Rep policy_ b g -> Rep_opt policy_ (run policy_ calls b) (steps calls g).
Proof.
  intros Happ. revert b g.
  induction calls as [|c calls IH]; intros b g H; simpl.
  - exact H.
  - pose proof (Rep_call c Happ H) as Hc.
    destruct (call policy_ c b) as [b'|], (step c g) as [g'|];
      simpl in Hc; try contradiction.
    + apply IH. exact Hc.
    + exact I.
Qed.

Lemma Rep_flushed b g :
  appends policy_ ->
  Rep policy_ b g -> Rep policy_ (flushed policy_ b) (finished g, []).
Proof.
  intros Happ H. unfold flushed, finished.
  rewrite (rep_start H), starts_length.
  destruct g as [closed pending]. simpl snd. simpl fst.
  destruct pending as [|k pending]; simpl.
  - exact H.
  - apply (Rep_GenerateFilter Happ H).
Qed.

Lemma Rep_Finish b g :
  appends policy_ ->
  Rep policy_ b g ->
  fst (Finish policy_ b) = region (filters_from policy_ [] (finished g)).
Proof.
  intros Happ H. pose proof (Rep_flushed Happ H) as Hf.
  rewrite Finish_layout, (rep_result Hf), (rep_offsets Hf). reflexivity.
Qed.

(** Any builder: [GenerateFilter] keeps what [result_] holds when the policy
    appends. *)
Lemma GenerateFilter_result_grows b :
  appends policy_ ->
  exists filter, result_ (GenerateFilter policy_ b) = result_ b ++ filter.
Proof.
  intros Happ. unfold GenerateFilter.
  destruct (Nat.eqb (length (start_ b)) 0).
  - exists []. simpl. rewrite app_nil_r. reflexivity.
  - cbv zeta. simpl. apply Happ.
Qed.

Lemma call_grows c b b' :
  appends policy_ ->
  call policy_ c b = Some b' ->
  exists more entries,
    result_ b' = result_ b ++ more /\
    filter_offsets_ b' = filter_offsets_ b ++ entries.
Proof.
  intros Happ Hc. destruct c as [block_offset|key]; simpl in Hc.
  - pose proof (StartBlock_Some _ _ _ Hc) as Hpre.
    rewrite (StartBlock_asserted _ _ _ Hpre) in Hc. injection Hc as <-.
    induction (Z.to_nat (block_offset / kFilterBase - size (filter_offsets_ b)))
      as [|n [more [entries [Hr Ho]]]].
    + exists [], []. simpl. rewrite !app_nil_r. split; reflexivity.
    + rewrite Nat.iter_succ.
      destruct (GenerateFilter_result_grows
                  (Nat.iter n (GenerateFilter policy_) b) Happ) as [f Hf].
      rewrite Hf, FilterBlockBuilder.GenerateFilter_offsets, Hr, Ho.
      rewrite <- !app_assoc. eexists. eexists. split; reflexivity.
  - injection Hc as <-. exists [], []. simpl. rewrite !app_nil_r.
    split; reflexivity.
Qed.

End WithPolicy.
End BucketsFacts.

Import Buckets BucketsFacts.

Section Further.
Context {W : Type} (policy_ : FilterPolicy W) (pf : Platform).

(** X1.  With a policy that appends, the calls on a fresh builder pass every
    assertion exactly when the key groups can follow them, and [Finish] then
    returns the region for these filters, one per group: every key is in the
    group that was pending when it was added, in the order of the calls, with
    repeated and empty keys kept; the filter of a group is what
    [CreateFilter] appended when it was given the keys of the group and their
    number converted to [int] ([Buckets.filter_for]); a bucket without keys
    has no filter bytes; keys still pending at [Finish] make one more bucket,
    and none is closed for no keys. *)
Theorem builder_follows_key_groups (calls : list Call) :
  appends policy_ ->
  option_map (fun b => fst (Finish policy_ b))
    (run policy_ calls FilterBlockBuilder.FilterBlockBuilder) =
  option_map (fun g => region (filters_from policy_ [] (finished g)))
    (steps calls ([], [])) /\
  option_map (fun b => size (filter_offsets_ (snd (Finish policy_ b))))
    (run policy_ calls FilterBlockBuilder.FilterBlockBuilder) =
  option_map (fun g => size (finished g)) (steps calls ([], [])).
Proof.
  intros Happ.
  pose proof (Rep_run calls Happ (Rep_new policy_)) as H.
  destruct (run policy_ calls FilterBlockBuilder.FilterBlockBuilder) as [b|],
    (steps calls ([], [])) as [g|]; simpl in H; try contradiction.
  - cbv [option_map]. split.
    + f_equal. apply Rep_Finish; assumption.
    + f_equal. destruct (Finish_members policy_ b) as [-> _].
      rewrite (Rep_count (Rep_flushed Happ H)). reflexivity.
  - split; reflexivity.
Qed.

(** X2.  The reader on what the builder wrote: with a policy that appends and
    filter data below [2^32] bytes, a query whose bucket index is below the
    number of buckets returns what the policy answers on that bucket's filter,
    and changes nothing else; that filter is what [CreateFilter] appended
    when it was given the keys of the bucket and their number converted to
    [int] ([Buckets.filter_for]), and is empty for a bucket without keys; a
    query past the last bucket answers [true] without asking the policy. *)
Theorem query_on_built_region (calls : list Call) (g : Groups) :
  appends policy_ ->
  steps calls ([], []) = Some g ->
  size (concat (filters_from policy_ [] (finished g))) < 2 ^ 32 ->
  exists b r,
    run policy_ calls FilterBlockBuilder.FilterBlockBuilder = Some b /\
    FilterBlockReader.FilterBlockReader pf (fst (Finish policy_ b)) = Some r /\
    forall block_offset key w,
      uint64_range block_offset ->
      FilterBlockReader.KeyMayMatch pf policy_ block_offset key
        (state (fst (Finish policy_ b)) r w) =
      match nth_error (filters_from policy_ [] (finished g))
              (Z.to_nat (Z.shiftr block_offset kFilterBaseLg)) with
      | Some filter =>
          let (res, w') := KeyMayMatch policy_ key filter w in
          Some (res, state (fst (Finish policy_ b)) r w')
      | None => Some (true, state (fst (Finish policy_ b)) r w)
      end.
Proof.
  intros Happ Hsteps HF.
  pose proof (Rep_run calls Happ (Rep_new policy_)) as H.
  rewrite Hsteps in H.
  destruct (run policy_ calls FilterBlockBuilder.FilterBlockBuilder) as [b|];
    simpl in H; [|contradiction].
  set (filters := filters_from policy_ [] (finished g)) in *.
  exists b, (reader_of filters). split; [reflexivity|].
  rewrite (Rep_Finish Happ H). fold filters.
  split; [apply reader_of_region_filters; exact HF|].
  intros block_offset key w [Hlo _].
  assert (Hidx : 0 <= Z.shiftr block_offset kFilterBaseLg)
    by (apply Z.shiftr_nonneg; exact Hlo).
  destruct (nth_error filters (Z.to_nat (Z.shiftr block_offset kFilterBaseLg)))
    as [filter|] eqn:Hnth.
  - assert (Hi : (Z.to_nat (Z.shiftr block_offset kFilterBaseLg)
                  < length filters)%nat)
      by (apply nth_error_Some; rewrite Hnth; discriminate).
    rewrite (@region_query pf W policy_ filters
               (Z.to_nat (Z.shiftr block_offset kFilterBaseLg))
               block_offset key w HF Hi)
      by (rewrite Z2Nat.id by exact Hidx; reflexivity).
    rewrite (nth_error_nth _ _ [] Hnth). reflexivity.
  - apply nth_error_None in Hnth.
    apply KeyMayMatch_past_end. unfold reader_of, FilterBlockReader.shr64.
    simpl. unfold size. unfold kFilterBaseLg in *. lia.
Qed.

(** X3.  Which calls pass the assertions: from any builder, the calls return
    a builder exactly when the bucket index of every [StartBlock] offset is at
    least the number of buckets closed before that call.  Offsets may go back
    inside a bucket; keys never matter. *)
Theorem run_passes_iff_bucket_indices_ordered (calls : list Call)
  (b : FilterBlockBuilder.t) :
  (exists b', run policy_ calls b = Some b') <->
  asserts_hold (size (filter_offsets_ b)) (block_offsets calls).
Proof.
  revert b. induction calls as [|c calls IH]; intros b.
  - simpl. split; [intros _; exact I|intros _; exists b; reflexivity].
  - destruct c as [block_offset|key]; simpl.
    + split.
      * intros [b' Hrun].
        destruct (StartBlock policy_ block_offset b) as [b1|] eqn:Hcall;
          [|discriminate].
        pose proof (StartBlock_Some _ _ _ Hcall) as Hpre.
        rewrite (StartBlock_asserted _ _ _ Hpre) in Hcall.
        injection Hcall as <-.
        split; [lia|].
        assert (Hb' : exists b'0,
                   run policy_ calls
                     (Nat.iter
                        (Z.to_nat (block_offset / kFilterBase -
                                   size (filter_offsets_ b)))
                        (GenerateFilter policy_) b) = Some b'0)
          by (exists b'; exact Hrun).
        apply IH in Hb'. rewrite iter_GenerateFilter_count in Hb'.
        replace (block_offset / kFilterBase)
          with (size (filter_offsets_ b) +
                Z.of_nat (Z.to_nat (block_offset / kFilterBase -
                                    size (filter_offsets_ b)))) at 1 by lia.
        exact Hb'.
      * intros [Hpre Hrest].
        rewrite StartBlock_asserted by lia.
        apply IH. rewrite iter_GenerateFilter_count.
        replace (size (filter_offsets_ b) +
                 Z.of_nat (Z.to_nat (block_offset / kFilterBase -
                                     size (filter_offsets_ b))))
          with (block_offset / kFilterBase) by lia.
        exact Hrest.
    + apply (IH (AddKey key b)).
Qed.

Lemma AddKeys_pending (keys pending : list Slice) (b : FilterBlockBuilder.t) :
  start_ b = starts pending ->
  keys_ b = concat pending ->
  let b' := fold_left (fun b0 key => AddKey key b0) keys b in
  start_ b' = starts (pending ++ keys) /\
  keys_ b' = concat (pending ++ keys) /\
  result_ b' = result_ b /\
  filter_offsets_ b' = filter_offsets_ b.
Proof.
  revert pending b. induction keys as [|k keys IH]; intros pending b Hs Hk.
  - simpl. rewrite app_nil_r. repeat split; assumption.
  - simpl fold_left.
    replace (pending ++ k :: keys) with ((pending ++ [k]) ++ keys)
      by (rewrite <- app_assoc; reflexivity).
    apply (IH (pending ++ [k]) (AddKey k b)); simpl.
    + rewrite Hs, Hk. symmetry. apply starts_snoc.
    + rewrite Hk, concat_app. simpl. rewrite app_nil_r. reflexivity.
Qed.

(** X4.  What [GenerateFilter] hands to the policy: on a builder whose
    pending keys are [pending], after [AddKey] for each of [keys],
    [GenerateFilter] calls [CreateFilter] with the array [pending ++ keys], in
    that order, repeated and empty keys included, with the number of these
    keys converted to [int], and with the filter data so far; it records
    where that data ended and clears the pending keys.  Below [2^31] keys
    the number handed over is the number of keys. *)
Theorem GenerateFilter_passes_added_keys (b : FilterBlockBuilder.t)
  (pending keys : list Slice) :
  start_ b = starts pending ->
  keys_ b = concat pending ->
  pending ++ keys <> [] ->
  GenerateFilter policy_ (fold_left (fun b0 key => AddKey key b0) keys b) =
  {| FilterBlockBuilder.keys_ := [];
     FilterBlockBuilder.start_ := [];
     FilterBlockBuilder.result_ :=
       CreateFilter policy_ (pending ++ keys)
         (to_int (size (pending ++ keys))) (result_ b);
     FilterBlockBuilder.tmp_keys_ := [];
     FilterBlockBuilder.filter_offsets_ :=
       filter_offsets_ b ++ [to_uint32 (size (result_ b))] |} /\
  (size (pending ++ keys) < 2 ^ 31 ->
   to_int (size (pending ++ keys)) = size (pending ++ keys)).
Proof.
  intros Hs Hk Hne.
  split; [|intros Hlt; apply to_int_small; split;
           [apply size_nonneg|exact Hlt]].
  destruct (AddKeys_pending keys pending b Hs Hk) as [Hs' [Hk' [Hr' Ho']]].
  unfold GenerateFilter. rewrite Hs', Hk', Hr', Ho', starts_length.
  destruct (pending ++ keys) as [|k all] eqn:Hall; [contradiction|].
  assert (Hnz : Nat.eqb (length (k :: all)) 0 = false) by reflexivity.
  rewrite Hnz. cbv zeta. rewrite (split_flattened (k :: all)). reflexivity.
Qed.

(** X5.  No query reads outside the buffer: for every buffer, well formed or
    not, the constructor returns a reader, and every query on it returns an
    answer, leaving the buffer and the reader's members as they were; only
    the policy's environment can change, and only through the policy. *)
Theorem query_never_faults (contents : Slice) :
  exists r,
    FilterBlockReader.FilterBlockReader pf contents = Some r /\
    (degraded r \/ valid r) /\
    forall block_offset key w,
      uint64_range block_offset ->
      exists answer w',
        FilterBlockReader.KeyMayMatch pf policy_ block_offset key
          (state contents r w) =
        Some (answer, state contents r w').
Proof.
  destruct (FilterBlockReader_cases pf contents) as [r [Hr Hcases]].
  exists r. split; [exact Hr|]. split.
  { destruct Hcases as [[Hdeg _]|[_ [lw [_ [_ [_ [Hd _]]]]]]].
    - left. exact Hdeg.
    - right. unfold valid. rewrite Hd. discriminate. }
  intros block_offset key w [Hlo _].
  destruct (@KeyMayMatch_constructed W policy_ pf contents r block_offset key w
              Hr Hlo) as [[answer Hself]|[filter Hask]].
  - exists answer, w. exact Hself.
  - destruct (KeyMayMatch policy_ key filter w) as [res w'].
    exists res, w'. exact Hask.
Qed.

(** X6.  Equal directory words: on a reader the constructor made, in the
    valid state, for a bucket index below the bucket count, both words of the
    bucket are read inside the buffer; when they are equal the range test
    comes first, so with the words at or before the directory the answer is
    the policy's on the empty filter, and only with the words beyond the
    directory is it [false] by the empty-filter branch. *)
Theorem equal_words_answer (contents : Slice) (r : FilterBlockReader.t)
  (d o block_offset : Z) (key : Slice) (w : W) :
  FilterBlockReader.FilterBlockReader pf contents = Some r ->
  FilterBlockReader.data_ r = addr d ->
  FilterBlockReader.offset_ r = addr o ->
  uint64_range block_offset ->
  let index := FilterBlockReader.shr64 pf block_offset
                 (FilterBlockReader.base_lg_ r) in
  index < FilterBlockReader.num_ r ->
  exists start limit,
    FilterBlockReader.DecodeFixed32 contents (addr (o + index * 4)) =
      Some start /\
    FilterBlockReader.DecodeFixed32 contents (addr (o + (index * 4 + 4))) =
      Some limit /\
    (start = limit ->
     FilterBlockReader.KeyMayMatch pf policy_ block_offset key
       (state contents r w) =
     if start <=? o - d then
       let (res, w') := KeyMayMatch policy_ key [] w in
       Some (res, state contents r w')
     else Some (false, state contents r w)).
Proof.
  intros Hr Hd Ho [Hlo _] index Hi.
  destruct (FilterBlockReader_cases pf contents)
    as [r0 [Hr0 [[[Hnull _] _]|[Hn [lw [_ [Hlw [Hlw32 [Hd0 [Ho0 Hnum]]]]]]]]]];
    rewrite Hr in Hr0; injection Hr0 as <-.
  { rewrite Hd in Hnull. discriminate. }
  pose proof Ho as Ho'. rewrite Ho0 in Ho'. injection Ho' as <-.
  assert (Hidx0 : 0 <= index) by (apply shr64_nonneg; exact Hlo).
  assert (Hroom : 4 * FilterBlockReader.num_ r <= size contents - 5 - lw)
    by (rewrite Hnum; apply Z.mul_div_le; lia).
  destruct (DecodeFixed32_in_range contents (a := lw + index * 4))
    as [start [Hs _]]; [lia|lia|].
  destruct (DecodeFixed32_in_range contents (a := lw + (index * 4 + 4)))
    as [limit [Hl _]]; [lia|lia|].
  exists start, limit. split; [exact Hs|]. split; [exact Hl|].
  intros Heq. subst limit.
  apply (@empty_marker_answer pf W policy_ contents r w block_offset key
           d lw start Hr Hlo Hi Hd Ho Hs Hl).
Qed.

(** X7.  The four-byte directory start: after calls with non-decreasing
    offsets, whatever the amount [F] of filter data, the reader made of the
    region is in the valid state and looks for the directory at [F] as a
    [uint32_t]; it counts exactly the [n] buckets the builder closed if and
    only if [F] is below [2^32]. *)
Theorem bucket_count_read_back_iff_below_4GiB (calls : list Call) :
  legal calls ->
  exists bld r,
    run policy_ calls FilterBlockBuilder.FilterBlockBuilder = Some bld /\
    FilterBlockReader.FilterBlockReader pf (fst (Finish policy_ bld)) = Some r /\
    FilterBlockReader.data_ r = addr 0 /\
    FilterBlockReader.offset_ r =
      addr (to_uint32 (size (result_ (flushed policy_ bld)))) /\
    (FilterBlockReader.num_ r =
       size (filter_offsets_ (snd (Finish policy_ bld))) <->
     size (result_ (flushed policy_ bld)) < 2 ^ 32).
Proof.
  intros Hlegal.
  destruct (legal_run policy_ calls (lo := 0)
              FilterBlockBuilder.FilterBlockBuilder Hlegal)
    as [bld Hrun]; [lia|vm_compute; discriminate|].
  exists bld. eexists. split; [exact Hrun|].
  destruct (Finish_members policy_ bld) as [Hfo _].
  rewrite Hfo, Finish_layout.
  split; [apply reader_of_layout; unfold kFilterBaseLg; lia|].
  split; [reflexivity|]. split; [reflexivity|].
  cbn [FilterBlockReader.num_].
  set (F := size (result_ (flushed policy_ bld))).
  set (n := size (filter_offsets_ (flushed policy_ bld))).
  assert (HF0 : 0 <= F) by apply size_nonneg.
  unfold to_uint32.
  pose proof (Z.div_mod F (2 ^ 32) ltac:(lia)) as Hdm.
  pose proof (Z.mod_pos_bound F (2 ^ 32) ltac:(lia)) as Hr.
  assert (Hq : 0 <= F / 2 ^ 32) by (apply Z.div_pos; lia).
  replace (F + 4 * n - F mod 2 ^ 32)
    with ((2 ^ 30 * (F / 2 ^ 32) + n) * 4) by lia.
  rewrite Z.div_mul by lia.
  split; intros H; [|].
  - assert (F / 2 ^ 32 = 0) by lia. lia.
  - rewrite (Z.div_small F (2 ^ 32)) by lia. lia.
Qed.

(** X8.  The builder only appends: with a policy that appends, whatever calls
    pass the assertions, the filter data and the directory the builder held
    before are the beginning of what it holds after, and the region [Finish]
    returns begins with that filter data. *)
Theorem builder_only_appends (calls : list Call) (b b' : FilterBlockBuilder.t) :
  appends policy_ ->
  run policy_ calls b = Some b' ->
  (exists more, result_ b' = result_ b ++ more) /\
  (exists entries, filter_offsets_ b' = filter_offsets_ b ++ entries) /\
  (exists rest, fst (Finish policy_ b') = result_ b ++ rest).
Proof.
  intros Happ Hrun.
  assert (Hgrow : exists more entries,
             result_ b' = result_ b ++ more /\
             filter_offsets_ b' = filter_offsets_ b ++ entries).
  { revert b Hrun. induction calls as [|c calls IH]; intros b Hrun;
      simpl in Hrun.
    - injection Hrun as <-. exists [], []. rewrite !app_nil_r.
      split; reflexivity.
    - destruct (call policy_ c b) as [b1|] eqn:Hcall; [|discriminate].
      destruct (@call_grows W policy_ c b b1 Happ Hcall)
        as [m1 [e1 [Hr1 Ho1]]].
      destruct (IH b1 Hrun) as [m2 [e2 [Hr2 Ho2]]].
      exists (m1 ++ m2), (e1 ++ e2).
      rewrite Hr2, Ho2, Hr1, Ho1, <- !app_assoc. split; reflexivity. }
  destruct Hgrow as [more [entries [Hr Ho]]].
  split; [exists more; exact Hr|]. split; [exists entries; exact Ho|].
  rewrite Finish_layout.
  assert (Hfl : exists f, result_ (flushed policy_ b') = result_ b' ++ f).
  { unfold flushed. destruct (negb (Nat.eqb (length (start_ b')) 0)).
    - apply GenerateFilter_result_grows. exact Happ.
    - exists []. rewrite app_nil_r. reflexivity. }
  destruct Hfl as [f Hf]. rewrite Hf, Hr, <- !app_assoc.
  eexists. reflexivity.
Qed.

End Further.

(** ** These properties on concrete inputs *)

(** X1 on the sample calls: the groups are "a", none, "b", and the region is
    the filters "a" and "b", the directory 0, 1, 1, its start 2 and the
    shift. *)
Lemma builder_follows_key_groups_witness :
  appends first_byte_policy /\
  steps sample_calls ([], []) = Some ([[[x61]]; []], [[x62]]) /\
  option_map (fun b => fst (Finish first_byte_policy b))
    (run first_byte_policy sample_calls FilterBlockBuilder.FilterBlockBuilder) =
  Some [x61; x62;
        x00; x00; x00; x00; x01; x00; x00; x00; x01; x00; x00; x00;
        x02; x00; x00; x00; x0b].
Proof.
  split; [exact first_byte_policy_appends|]. split; [reflexivity|].
  destruct (@builder_follows_key_groups unit first_byte_policy sample_calls
              first_byte_policy_appends) as [Hregion _].
  rewrite Hregion. reflexivity.
Defined.

(** X2 on the sample calls: in bucket 1, which has no keys, the policy is
    asked about the empty filter and answers [false]; past bucket 2 the
    answer is [true]. *)
Lemma query_on_built_region_witness :
  exists b r,
    run first_byte_policy sample_calls FilterBlockBuilder.FilterBlockBuilder =
      Some b /\
    FilterBlockReader.FilterBlockReader platform
      (fst (Finish first_byte_policy b)) = Some r /\
    FilterBlockReader.KeyMayMatch platform first_byte_policy 2048 [x61]
      (state (fst (Finish first_byte_policy b)) r tt) =
    Some (false, state (fst (Finish first_byte_policy b)) r tt) /\
    FilterBlockReader.KeyMayMatch platform first_byte_policy 6144 [x61]
      (state (fst (Finish first_byte_policy b)) r tt) =
    Some (true, state (fst (Finish first_byte_policy b)) r tt).
Proof.
  destruct (@query_on_built_region unit first_byte_policy platform sample_calls
              ([[[x61]]; []], [[x62]]) first_byte_policy_appends eq_refl)
    as [b [r [Hrun [Hreader Hquery]]]]; [reflexivity|].
  exists b, r. split; [exact Hrun|]. split; [exact Hreader|]. split.
  - apply (Hquery 2048 [x61] tt). split; [discriminate|reflexivity].
  - apply (Hquery 6144 [x61] tt). split; [discriminate|reflexivity].
Defined.

(** X4 on a fresh builder and the keys "a", "", "a". *)
Lemma GenerateFilter_passes_added_keys_witness :
  GenerateFilter first_byte_policy
    (fold_left (fun b0 key => AddKey key b0) [[x61]; []; [x61]]
       FilterBlockBuilder.FilterBlockBuilder) =
  {| FilterBlockBuilder.keys_ := [];
     FilterBlockBuilder.start_ := [];
     FilterBlockBuilder.result_ := [x61; x00; x61];
     FilterBlockBuilder.tmp_keys_ := [];
     FilterBlockBuilder.filter_offsets_ := [0] |}.
Proof.
  apply (proj1 (@GenerateFilter_passes_added_keys unit first_byte_policy
                  FilterBlockBuilder.FilterBlockBuilder [] [[x61]; []; [x61]]
                  eq_refl eq_refl ltac:(discriminate))).
Defined.

(** X6 on a region of two buckets without keys and a policy that answers
    "maybe" to everything: both words of bucket 0 are 0 and the answer is the
    policy's, [true]. *)
Lemma equal_words_answer_witness :
  FilterBlockReader.KeyMayMatch platform always_policy 0 [x61]
    (state [x00; x00; x00; x00; x00; x00; x00; x00; x00; x00; x00; x00; x0b]
       {| FilterBlockReader.data_ := addr 0;
          FilterBlockReader.offset_ := addr 0;
          FilterBlockReader.num_ := 2;
          FilterBlockReader.base_lg_ := 11 |} tt) =
  Some (true,
        state [x00; x00; x00; x00; x00; x00; x00; x00; x00; x00; x00; x00; x0b]
          {| FilterBlockReader.data_ := addr 0;
             FilterBlockReader.offset_ := addr 0;
             FilterBlockReader.num_ := 2;
             FilterBlockReader.base_lg_ := 11 |} tt).
Proof.
  destruct (@equal_words_answer unit always_policy platform
              [x00; x00; x00; x00; x00; x00; x00; x00; x00; x00; x00; x00; x0b]
              {| FilterBlockReader.data_ := addr 0;
                 FilterBlockReader.offset_ := addr 0;
                 FilterBlockReader.num_ := 2;
                 FilterBlockReader.base_lg_ := 11 |}
              0 0 0 [x61] tt)
    as [start [limit [Hs [Hl Heq]]]].
  - vm_compute. reflexivity.
  - reflexivity.
  - reflexivity.
  - split; [discriminate|reflexivity].
  - reflexivity.
  - vm_compute in Hs. vm_compute in Hl.
    injection Hs as <-. injection Hl as <-.
    exact (Heq eq_refl).
Defined.

(** X7 on the sample calls: two bytes of filter data, three buckets. *)
Lemma bucket_count_read_back_witness :
  legal sample_calls /\
  exists bld r,
    run first_byte_policy sample_calls FilterBlockBuilder.FilterBlockBuilder =
      Some bld /\
    FilterBlockReader.FilterBlockReader platform
      (fst (Finish first_byte_policy bld)) = Some r /\
    FilterBlockReader.num_ r = 3.
Proof.
  split; [exact sample_calls_legal|].
  destruct (@bucket_count_read_back_iff_below_4GiB unit first_byte_policy
              platform sample_calls sample_calls_legal)
    as [bld [r [Hrun [Hreader [_ [_ Hcount]]]]]].
  exists bld, r. split; [exact Hrun|]. split; [exact Hreader|].
  vm_compute in Hrun. injection Hrun as <-.
  rewrite (proj2 Hcount); reflexivity.
Defined.

(** X8 on a builder that holds the filter "a": after one more key, [Finish]
    returns a region that begins with "a". *)
Lemma builder_only_appends_witness :
  exists rest,
    fst (Finish first_byte_policy
           (AddKey [x62]
              (GenerateFilter first_byte_policy
                 (AddKey [x61] FilterBlockBuilder.FilterBlockBuilder)))) =
    [x61] ++ rest.
Proof.
  destruct (@builder_only_appends unit first_byte_policy [CallAddKey [x62]]
              (GenerateFilter first_byte_policy
                 (AddKey [x61] FilterBlockBuilder.FilterBlockBuilder))
              _ first_byte_policy_appends eq_refl) as [_ [_ Hrest]].
  exact Hrest.
Defined.

(** ** One bucket of [2^32] keys

    The key "a" is added [M + 1] times with no bucket closed; [M] is kept a
    variable, with [Z.of_nat M = 2^32 - 1].  [GenerateFilter] hands the policy
    the number of keys as an [int], which is 0. *)

Lemma steps_AddKeys (keys : list Slice) (g : Groups) :
  steps (map CallAddKey keys) g = Some (fst g, snd g ++ keys).
Proof.
  revert g. induction keys as [|k keys IH]; intros g; simpl.
  - rewrite app_nil_r. destruct g; reflexivity.
  - rewrite IH. simpl. rewrite <- app_assoc. reflexivity.
Qed.

Section FourGiKeys.
Variable pf : Platform.
Variable M : nat.
Hypothesis HM : Z.of_nat M = 2 ^ 32 - 1.

Lemma four_Gi_keys_size : size ([x61] :: repeat [x61] M) = 2 ^ 32.
Proof. unfold size. simpl length. rewrite repeat_length. lia. Qed.

Lemma four_Gi_keys_filter :
  filter_for first_byte_policy ([x61] :: repeat [x61] M) [] = [].
Proof. unfold filter_for. rewrite four_Gi_keys_size. reflexivity. Qed.

Lemma AddKeys_legal (keys : list Slice) : legal (map CallAddKey keys).
Proof.
  unfold legal.
  induction keys as [|k keys IH]; [exact I|exact IH].
Qed.

(** The region [Finish] returns has no filter bytes, and the query for the
    key in bucket 0 hands the empty filter to the policy. *)
Lemma four_Gi_of_keys :
  legal (map CallAddKey ([x61] :: repeat [x61] M)) /\
  size ([x61] :: repeat [x61] M) = 2 ^ 32 /\
  exists out bld r,
    build first_byte_policy (map CallAddKey ([x61] :: repeat [x61] M)) =
      Some (out, bld) /\
    out = [x00; x00; x00; x00; x00; x00; x00; x00; x0b] /\
    FilterBlockReader.FilterBlockReader pf out = Some r /\
    valid r /\
    FilterBlockReader.KeyMayMatch pf first_byte_policy 0 [x61]
      (state out r tt) =
    Some (false, state out r tt).
Proof.
  split; [apply AddKeys_legal|]. split; [exact four_Gi_keys_size|].
  set (keys := [x61] :: repeat [x61] M).
  pose proof (Rep_run (map CallAddKey keys) first_byte_policy_appends
                (Rep_new first_byte_policy)) as H.
  rewrite steps_AddKeys in H.
  destruct (run first_byte_policy (map CallAddKey keys)
              FilterBlockBuilder.FilterBlockBuilder) as [b|] eqn:Hrun;
    [|contradiction].
  simpl in H.
  pose proof (Rep_Finish first_byte_policy_appends H) as Hout.
  change (finished ([], keys)) with [keys] in Hout.
  change (filters_from first_byte_policy [] [keys])
    with [filter_for first_byte_policy keys []] in Hout.
  unfold keys in Hout. rewrite four_Gi_keys_filter in Hout.
  change (region [[]]) with [x00; x00; x00; x00; x00; x00; x00; x00; x0b]
    in Hout.
  exists (fst (Finish first_byte_policy b)), (snd (Finish first_byte_policy b)).
  eexists.
  split; [unfold build; rewrite Hrun; apply f_equal, surjective_pairing|].
  split; [exact Hout|]. rewrite Hout.
  split; [apply (reader_of_region pf [] [0] (shift := 11)); [reflexivity|lia]|].
  split; [discriminate|].
  rewrite (@KeyMayMatch_in_range pf unit first_byte_policy
             [x00; x00; x00; x00; x00; x00; x00; x00; x0b] _ tt 0 [x61]
             0 0 0 0);
    reflexivity.
Qed.

End FourGiKeys.

(** The second condition of C1 as amended is needed: the policy keeps the
    first byte of each of the keys it is given and never answers [false] for
    one of them; the key "a" is added [2^32] times with no bucket closed, and
    the filter data is empty, below [2^32] bytes.  The query for "a" at
    offset 0 answers [false]. *)
Lemma four_Gi_keys_false_negative :
  appends first_byte_policy /\
  no_false_negatives first_byte_policy /\
  legal (map CallAddKey ([x61] :: repeat [x61] (Z.to_nat (2 ^ 32 - 1)))) /\
  size ([x61] :: repeat [x61] (Z.to_nat (2 ^ 32 - 1))) = 2 ^ 32 /\
  exists out bld r,
    build first_byte_policy
      (map CallAddKey ([x61] :: repeat [x61] (Z.to_nat (2 ^ 32 - 1)))) =
      Some (out, bld) /\
    out = [x00; x00; x00; x00; x00; x00; x00; x00; x0b] /\
    FilterBlockReader.FilterBlockReader platform out = Some r /\
    valid r /\
    FilterBlockReader.KeyMayMatch platform first_byte_policy 0 [x61]
      (state out r tt) =
    Some (false, state out r tt).
Proof.
  split; [exact first_byte_policy_appends|].
  split; [exact first_byte_policy_no_false_negatives|].
  assert (HM : Z.of_nat (Z.to_nat (2 ^ 32 - 1)) = 2 ^ 32 - 1)
    by (apply Z2Nat.id; lia).
  exact (@four_Gi_of_keys platform (Z.to_nat (2 ^ 32 - 1)) HM).
Qed.
